(** * Staging, lazy construction and deferred destruction of the render-side
    objects of the stardust XR server: [Model] (src/nodes/drawable/model.rs),
    [CoreSurface] (src/wayland/surface.rs) and the accept loop of
    [EventLoop] (src/core/eventloop.rs).

    The graphics API (StereoKit) is an explicit state [Sk]: a handle
    allocator, the material slots of each model, the parameters of each
    material, the number of host-side owners of the handles the server keeps
    in [SendWrapper] / [Arc] fields, and a trace of the graphics calls made,
    newest last. Rust [HashMap]s are stdpp [gmap]s; the iteration order of a
    [HashMap] is unspecified, and [map_to_list] stands for it. *)

From stdpp Require Import base gmap list strings.

Open Scope Z_scope.

(** ** Data model *)

Definition Handle := nat.

(** [ResourceID]: resolved to a file by [get_file] (asset resolution is an
    external collaborator, given by [Env] below). *)
Definition ResourceID := string.

(** [MaterialParameter]: the fifteen value variants ([Float] .. [Matrix])
    are passed unchanged to a [material_set_*] call; they are kept as a
    variant tag with the raw components. [Texture] first resolves a file. *)
Inductive MaterialParameter : Type :=
  | MPValue (variant : nat) (components : list Z)
  | MPTexture (resource : ResourceID).

#[global] Instance MaterialParameter_eq_dec : EqDecision MaterialParameter.
Proof. solve_decision. Defined.

(** The graphics calls the server makes, as they appear in the trace. *)
Inductive GpuEvent : Type :=
  | EvModelCreateFile (path : string)
  | EvModelCopy (src dst : Handle)
  | EvModelGetMaterial (model : Handle) (idx : Z)
  | EvModelSetMaterial (model : Handle) (idx : Z) (mat : Handle)
  | EvMaterialCopy (src dst : Handle)
  | EvMaterialSet (mat : Handle) (name : string) (value : MaterialParameter)
  | EvModelDraw (model : Handle)
  | EvTexCreate (tex : Handle)
  | EvMaterialCreate (mat : Handle) (tex : Handle)
  | EvTexSetSurface (tex : Handle) (wl_tex : nat)
  | EvMaterialSetQueueOffset (mat : Handle) (offset : Z)
  | EvDestroy (h : Handle).

#[global] Instance GpuEvent_eq_dec : EqDecision GpuEvent.
Proof. solve_decision. Defined.

(** External collaborators: asset resolution and the content of files. *)
Record Env : Type := {
  (** [ResourceID::get_file(prefixes, extensions)] *)
  get_file : ResourceID -> list string -> list string -> option string;
  (** the material slots of a model file that reads and decodes, else [None] *)
  model_file : string -> option (list Z);
  (** whether [tex_create_file] succeeds on a file *)
  texture_file_ok : string -> bool;
}.

Record Client : Type := { base_resource_prefixes : list string }.

Record Sk : Type := {
  sk_next : Handle;
  sk_models : gmap Handle (gmap Z Handle);
  sk_materials : gmap Handle (gmap string MaterialParameter);
  sk_refs : gmap Handle nat;
  sk_log : list GpuEvent;
}.

Definition mk_sk n mo ma r l : Sk :=
  {| sk_next := n; sk_models := mo; sk_materials := ma; sk_refs := r; sk_log := l |}.

Definition emit (e : GpuEvent) (sk : Sk) : Sk :=
  mk_sk (sk_next sk) (sk_models sk) (sk_materials sk) (sk_refs sk) (sk_log sk ++ [e]).

(** A fresh handle. *)
Definition alloc (sk : Sk) : Sk * Handle :=
  (mk_sk (S (sk_next sk)) (sk_models sk) (sk_materials sk) (sk_refs sk) (sk_log sk),
   sk_next sk).

(** The server starts owning a handle ([SendWrapper::new] / [Arc::new]). *)
Definition own (h : Handle) (sk : Sk) : Sk :=
  mk_sk (sk_next sk) (sk_models sk) (sk_materials sk) (<[h := 1%nat]> (sk_refs sk)) (sk_log sk).

(** [Arc::clone] of an owned handle. *)
Definition retain (h : Handle) (sk : Sk) : Sk :=
  match sk_refs sk !! h with
  | Some n => mk_sk (sk_next sk) (sk_models sk) (sk_materials sk)
                    (<[h := S n]> (sk_refs sk)) (sk_log sk)
  | None => sk
  end.

(** Dropping one owner of a handle; the last owner runs the destruction
    primitive. Handles the server does not own are reference counted inside
    StereoKit and their release is not traced. *)
Definition release (h : Handle) (sk : Sk) : Sk :=
  match sk_refs sk !! h with
  | Some (S (S n)) => mk_sk (sk_next sk) (sk_models sk) (sk_materials sk)
                            (<[h := S n]> (sk_refs sk)) (sk_log sk)
  | Some _ => emit (EvDestroy h)
                (mk_sk (sk_next sk) (sk_models sk) (sk_materials sk)
                       (delete h (sk_refs sk)) (sk_log sk))
  | None => sk
  end.

Fixpoint release_all (l : list Handle) (sk : Sk) : Sk :=
  match l with
  | [] => sk
  | h :: l' => release_all l' (release h sk)
  end.

(** [sk.model_create_file(path, None)]: a fresh model whose slots get fresh
    materials. *)
Fixpoint alloc_slots (slots : list Z) (acc : gmap Z Handle) (sk : Sk)
  : Sk * gmap Z Handle :=
  match slots with
  | [] => (sk, acc)
  | i :: rest =>
      let '(sk1, mat) := alloc sk in
      let sk2 := mk_sk (sk_next sk1) (sk_models sk1)
                   (<[mat := ∅]> (sk_materials sk1)) (sk_refs sk1) (sk_log sk1) in
      alloc_slots rest (<[i := mat]> acc) sk2
  end.

Definition model_create_file (env : Env) (path : string) (sk : Sk) : Sk * option Handle :=
  let sk0 := emit (EvModelCreateFile path) sk in
  match model_file env path with
  | None => (sk0, None)
  | Some slots =>
      let '(sk1, mats) := alloc_slots slots ∅ sk0 in
      let '(sk2, h) := alloc sk1 in
      (mk_sk (sk_next sk2) (<[h := mats]> (sk_models sk2)) (sk_materials sk2)
             (sk_refs sk2) (sk_log sk2), Some h)
  end.

(** [sk.model_copy(model)]: a new model sharing the materials of its slots. *)
Definition model_copy (src : Handle) (sk : Sk) : Sk * Handle :=
  let '(sk1, h) := alloc sk in
  let slots := default ∅ (sk_models sk1 !! src) in
  (emit (EvModelCopy src h)
     (mk_sk (sk_next sk1) (<[h := slots]> (sk_models sk1)) (sk_materials sk1)
            (sk_refs sk1) (sk_log sk1)), h).

(** [sk.model_get_material(model, idx)] *)
Definition model_get_material (model : Handle) (idx : Z) (sk : Sk) : Sk * option Handle :=
  (emit (EvModelGetMaterial model idx) sk,
   sk_models sk !! model ≫= fun slots => slots !! idx).

(** [sk.model_set_material(model, idx, mat)]: replaces an existing slot. *)
Definition model_set_material (model : Handle) (idx : Z) (mat : Handle) (sk : Sk) : Sk :=
  let upd (slots : gmap Z Handle) :=
    match slots !! idx with Some _ => <[idx := mat]> slots | None => slots end in
  emit (EvModelSetMaterial model idx mat)
    (mk_sk (sk_next sk) (alter upd model (sk_models sk)) (sk_materials sk)
           (sk_refs sk) (sk_log sk)).

(** [sk.material_copy(material)]: a fresh material with the same parameters. *)
Definition material_copy (src : Handle) (sk : Sk) : Sk * Handle :=
  let '(sk1, h) := alloc sk in
  let params := default ∅ (sk_materials sk1 !! src) in
  (emit (EvMaterialCopy src h)
     (mk_sk (sk_next sk1) (sk_models sk1) (<[h := params]> (sk_materials sk1))
            (sk_refs sk1) (sk_log sk1)), h).

(** [sk.material_set_*(material, name, value)] *)
Definition material_set (mat : Handle) (name : string) (v : MaterialParameter) (sk : Sk) : Sk :=
  emit (EvMaterialSet mat name v)
    (mk_sk (sk_next sk) (sk_models sk)
           (alter (insert name v) mat (sk_materials sk)) (sk_refs sk) (sk_log sk)).

(** [MaterialParameter::apply_to_material] *)
Definition apply_to_material (env : Env) (client : Client) (v : MaterialParameter)
    (mat : Handle) (name : string) (sk : Sk) : Sk :=
  match v with
  | MPValue _ _ => material_set mat name v sk
  | MPTexture resource =>
      match get_file env resource (base_resource_prefixes client) ["png"; "jpg"] with
      | None => sk
      | Some texture_path =>
          if texture_file_ok env texture_path then material_set mat name v sk else sk
      end
  end.

(** [material_idx as i32] on a [u32]. *)
Definition as_i32 (x : Z) : Z := if Z.ltb x (2 ^ 31) then x else x - 2 ^ 32.

(** ** [Model] (src/nodes/drawable/model.rs) *)

Record Model : Type := {
  enabled : bool;
  (** [self.space.node.upgrade().and_then(|n| n.client.upgrade())] *)
  space_client : option Client;
  resource_id : ResourceID;
  (** [OnceCell<PathBuf>] *)
  pending_model_path : option string;
  (** [Mutex<FxHashMap<(i32, String), MaterialParameter>>] *)
  pending_material_parameters : gmap (Z * string) MaterialParameter;
  (** [Mutex<FxHashMap<u32, Arc<SendWrapper<Material>>>>] *)
  pending_material_replacements : gmap Z Handle;
  (** [OnceCell<SendWrapper<SKModel>>] *)
  sk_model : option Handle;
}.

Definition with_path (m : Model) (p : option string) : Model :=
  {| enabled := enabled m; space_client := space_client m; resource_id := resource_id m;
     pending_model_path := p; pending_material_parameters := pending_material_parameters m;
     pending_material_replacements := pending_material_replacements m;
     sk_model := sk_model m |}.

Definition with_parameters (m : Model) (ps : gmap (Z * string) MaterialParameter) : Model :=
  {| enabled := enabled m; space_client := space_client m; resource_id := resource_id m;
     pending_model_path := pending_model_path m; pending_material_parameters := ps;
     pending_material_replacements := pending_material_replacements m;
     sk_model := sk_model m |}.

Definition with_replacements (m : Model) (rs : gmap Z Handle) : Model :=
  {| enabled := enabled m; space_client := space_client m; resource_id := resource_id m;
     pending_model_path := pending_model_path m;
     pending_material_parameters := pending_material_parameters m;
     pending_material_replacements := rs; sk_model := sk_model m |}.

Definition with_sk_model (m : Model) (h : option Handle) : Model :=
  {| enabled := enabled m; space_client := space_client m; resource_id := resource_id m;
     pending_model_path := pending_model_path m;
     pending_material_parameters := pending_material_parameters m;
     pending_material_replacements := pending_material_replacements m; sk_model := h |}.

(** [Model::set_material_parameter_flex], after deserialisation. *)
Definition set_material_parameter (idx : Z) (name : string) (value : MaterialParameter)
    (m : Model) : Model :=
  with_parameters m (<[(as_i32 idx, name) := value]> (pending_material_parameters m)).

(** [model.pending_material_replacements.lock().insert(material_idx, mat)]
    (the public field, written by [CoreSurface::apply_surface_materials]).
    The displaced [Arc], if any, is dropped. *)
Definition insert_replacement (idx : Z) (mat : Handle) (m : Model) (sk : Sk) : Model * Sk :=
  let sk1 := retain mat sk in
  let sk2 := match pending_material_replacements m !! idx with
             | Some old => release old sk1 | None => sk1 end in
  (with_replacements m (<[idx := mat]> (pending_material_replacements m)), sk2).

(** The closure of [get_or_try_init]: read the path, create the model from
    the file, keep a copy; the temporary [model] is dropped at its end. *)
Definition construct (env : Env) (m : Model) (sk : Sk) : Sk * option Handle :=
  match pending_model_path m with
  | None => (sk, None)
  | Some path =>
      match model_create_file env path sk with
      | (sk1, None) => (sk1, None)
      | (sk1, Some model) =>
          let '(sk2, h) := model_copy model sk1 in (own h sk2, Some h)
      end
  end.

(** [self.sk_model.get_or_try_init(..).ok()]: a failed initialisation leaves
    the cell empty. *)
Definition get_or_try_init (env : Env) (m : Model) (sk : Sk) : Model * Sk * option Handle :=
  match sk_model m with
  | Some h => (m, sk, Some h)
  | None =>
      match construct env m sk with
      | (sk1, Some h) => (with_sk_model m (Some h), sk1, Some h)
      | (sk1, None) => (m, sk1, None)
      end
  end.

(** First loop of [draw]: each entry is applied only if its slot exists. *)
Fixpoint apply_replacements (h : Handle) (l : list (Z * Handle)) (sk : Sk) : Sk :=
  match l with
  | [] => sk
  | (material_idx, replacement) :: l' =>
      let '(sk1, found) := model_get_material h (as_i32 material_idx) sk in
      let sk2 := match found with
                 | Some _ => model_set_material h (as_i32 material_idx) replacement sk1
                 | None => sk1 end in
      apply_replacements h l' sk2
  end.

(** Second loop of [draw], over [material_parameters.drain()]: copy the
    slot's material, write the parameter on the copy, put the copy in the
    slot. *)
Fixpoint apply_parameters (env : Env) (client : Client) (h : Handle)
    (l : list ((Z * string) * MaterialParameter)) (sk : Sk) : Sk :=
  match l with
  | [] => sk
  | ((material_idx, parameter_name), parameter_value) :: l' =>
      let '(sk1, found) := model_get_material h material_idx sk in
      match found with
      | None => apply_parameters env client h l' sk1
      | Some material =>
          let '(sk2, new_material) := material_copy material sk1 in
          let sk3 := apply_to_material env client parameter_value new_material
                       parameter_name sk2 in
          let sk4 := model_set_material h material_idx new_material sk3 in
          apply_parameters env client h l' sk4
      end
  end.

(** [Model::draw] *)
Definition draw (env : Env) (m : Model) (sk : Sk) : Model * Sk :=
  let '(m1, sk1, res) := get_or_try_init env m sk in
  match res with
  | None => (m1, sk1)
  | Some h =>
      let repl := map_to_list (pending_material_replacements m1) in
      let sk2 := apply_replacements h repl sk1 in
      (* [material_replacements.clear()] drops every [Arc] *)
      let sk3 := release_all (map snd repl) sk2 in
      let m2 := with_replacements m1 ∅ in
      let '(m3, sk4) :=
        match space_client m2 with
        | Some client =>
            (with_parameters m2 ∅,
             apply_parameters env client h (map_to_list (pending_material_parameters m2)) sk3)
        | None => (m2, sk3)
        end in
      (m3, emit (EvModelDraw h) sk4)
  end.

(** Repeated per-frame calls. *)
Fixpoint draw_n (n : nat) (env : Env) (m : Model) (sk : Sk) : Model * Sk :=
  match n with
  | O => (m, sk)
  | S n' => let '(m1, sk1) := draw env m sk in draw_n n' env m1 sk1
  end.

(** ** Destroy queue *)

(** Modelled from the spec: [destroy_queue] (src/core/destroy_queue.rs is
    not among the sources). [add] takes ownership of a boxed value, from any
    thread, and appends it; the render thread drains the whole queue once per
    frame, in enqueue order, running the real teardown of each value, which
    for a server-owned graphics handle is dropping its owner. Smithay
    textures ([CoreSurfaceData.wl_tex]) are queued too; their teardown is a
    GLES call outside the StereoKit state and is not traced. *)
Inductive QueueEntry : Type :=
  | QHandle (h : Handle)
  | QGlesTexture (wl_tex : nat).

#[global] Instance QueueEntry_eq_dec : EqDecision QueueEntry.
Proof. solve_decision. Defined.

Definition destroy_queue_add (e : QueueEntry) (q : list QueueEntry) : list QueueEntry :=
  q ++ [e].

Definition teardown (e : QueueEntry) (sk : Sk) : Sk :=
  match e with QHandle h => release h sk | QGlesTexture _ => sk end.

Fixpoint teardown_all (q : list QueueEntry) (sk : Sk) : Sk :=
  match q with [] => sk | e :: q' => teardown_all q' (teardown e sk) end.

Definition drain_destroy_queue (q : list QueueEntry) (sk : Sk) : list QueueEntry * Sk :=
  ([], teardown_all q sk).

(** [impl Drop for Model]: the built model (if any) is taken and queued,
    the registry entry removed; then the fields are dropped, among them the
    [Arc]s held by pending replacements. *)
Definition model_drop (m : Model) (q : list QueueEntry) (sk : Sk) : list QueueEntry * Sk :=
  let q1 := match sk_model m with
            | Some h => destroy_queue_add (QHandle h) q
            | None => q end in
  (q1, release_all (map snd (map_to_list (pending_material_replacements m))) sk).

(** ** Registry and the per-frame entry point *)

Record World : Type := {
  w_sk : Sk;
  (** [MODEL_REGISTRY]: the live models by identity *)
  w_models : gmap nat Model;
  w_next_model : nat;
  (** the process-wide destroy queue *)
  w_queue : list QueueEntry;
}.

Definition mk_world sk ms n q : World :=
  {| w_sk := sk; w_models := ms; w_next_model := n; w_queue := q |}.

(** Dropping the last [Arc<Model>]: [Drop::drop] then the fields. *)
Definition drop_model (id : nat) (w : World) : World :=
  match w_models w !! id with
  | None => w
  | Some m =>
      let '(q, sk) := model_drop m (w_queue w) (w_sk w) in
      mk_world sk (delete id (w_models w)) (w_next_model w) q
  end.

(** [draw_all]: every model of a registry snapshot, if enabled. *)
Fixpoint draw_each (env : Env) (l : list (nat * Model)) (w : World) : World :=
  match l with
  | [] => w
  | (id, _) :: l' =>
      match w_models w !! id with
      | Some m =>
          if enabled m then
            let '(m', sk') := draw env m (w_sk w) in
            draw_each env l' (mk_world sk' (<[id := m']> (w_models w)) (w_next_model w) (w_queue w))
          else draw_each env l' w
      | None => draw_each env l' w
      end
  end.

Definition draw_all (env : Env) (w : World) : World :=
  draw_each env (map_to_list (w_models w)) w.

(** The scene node a model is attached to. *)
Record Node : Type := {
  node_has_spatial : bool;
  node_has_drawable : bool;
  node_enabled : bool;
  (** [node.get_client()] *)
  node_client : option Client;
}.

Inductive AddError : Type :=
  | NoSpatial | DrawableAttached | ClientNotFound | ResourceNotFound.

(** [Model::add_to], up to and including [MODEL_REGISTRY.add(model)]: the
    model is published with an empty [pending_model_path]. *)
Definition add_to_publish (node : Node) (rid : ResourceID) (w : World)
  : AddError + (nat * World) :=
  if negb (node_has_spatial node) then inl NoSpatial
  else if node_has_drawable node then inl DrawableAttached
  else
    let m := {| enabled := node_enabled node; space_client := node_client node;
                resource_id := rid; pending_model_path := None;
                pending_material_parameters := ∅; pending_material_replacements := ∅;
                sk_model := None |} in
    let id := w_next_model w in
    inr (id, mk_world (w_sk w) (<[id := m]> (w_models w)) (S id) (w_queue w)).

(** The rest of [Model::add_to]: resolve the file and set the path; on an
    error [?] returns and [model_arc], the only owner, is dropped. *)
Definition add_to_resolve (env : Env) (node : Node) (id : nat) (w : World)
  : option AddError * World :=
  match w_models w !! id with
  | None => (None, w)
  | Some m =>
      match node_client node with
      | None => (Some ClientNotFound, drop_model id w)
      | Some client =>
          match get_file env (resource_id m) (base_resource_prefixes client) ["glb"; "gltf"] with
          | None => (Some ResourceNotFound, drop_model id w)
          | Some path =>
              let m' := match pending_model_path m with
                        | None => with_path m (Some path)
                        | Some _ => m end in
              (None, mk_world (w_sk w) (<[id := m']> (w_models w)) (w_next_model w) (w_queue w))
          end
      end
  end.

Definition add_to (env : Env) (node : Node) (rid : ResourceID) (w : World)
  : (AddError + nat) * World :=
  match add_to_publish node rid w with
  | inl e => (inl e, w)
  | inr (id, w1) =>
      match add_to_resolve env node id w1 with
      | (Some e, w2) => (inl e, w2)
      | (None, w2) => (inr id, w2)
      end
  end.

(** ** [Delta] *)

(** Modelled from the spec: [Delta<T>] (src/core/delta.rs is not among the
    sources). [new(initial)] sets current = last; [value_mut] writes the
    current value; [delta] compares current to last and, when they differ,
    updates last and returns the current value, else returns nothing. *)
Record Delta (A : Type) : Type := { delta_value : A; delta_last : A }.
Arguments delta_value {A} _.
Arguments delta_last {A} _.

Definition delta_new {A} (initial : A) : Delta A :=
  {| delta_value := initial; delta_last := initial |}.

(** [*cell.value_mut() = v] *)
Definition delta_write {A} (v : A) (d : Delta A) : Delta A :=
  {| delta_value := v; delta_last := delta_last d |}.

Definition delta {A} `{EqDecision A} (d : Delta A) : Delta A * option A :=
  if decide (delta_value d = delta_last d) then (d, None)
  else ({| delta_value := delta_value d; delta_last := delta_value d |}, Some (delta_value d)).

(** ** [CoreSurface] (src/wayland/surface.rs) *)

Record CoreSurfaceData : Type := {
  wl_tex : option nat;
  size : Z * Z;
}.

Record CoreSurface : Type := {
  (** [self.weak_surface.upgrade().is_ok()] *)
  surface_alive : bool;
  mapped_data : option CoreSurfaceData;
  sk_tex : option Handle;
  (** [OnceCell<Arc<SendWrapper<Material>>>] *)
  sk_mat : option Handle;
  material_offset : Delta Z;
  (** [Vec<(Arc<Model>, u32)>], models by identity *)
  pending_material_applications : list (nat * Z);
}.

Definition mk_surface alive md t m off apps : CoreSurface :=
  {| surface_alive := alive; mapped_data := md; sk_tex := t; sk_mat := m;
     material_offset := off; pending_material_applications := apps |}.

(** What the display protocol reports for the surface this frame. *)
Record SurfaceFrame : Type := {
  (** [import_surface_tree(renderer, &wl_surface).is_ok()] *)
  import_ok : bool;
  (** a [RendererSurfaceStateUserData] with [buffer().is_some()] *)
  buffer_mapped : bool;
  (** [texture::<GlesRenderer>(renderer.id())]: id, width, height *)
  smithay_tex : option (nat * Z * Z);
  (** [renderer_surface_state.surface_size()] *)
  surface_size : option (Z * Z);
}.

(** [CoreSurface::apply_material] *)
Definition apply_material (model : nat) (material_idx : Z) (s : CoreSurface) : CoreSurface :=
  mk_surface (surface_alive s) (mapped_data s) (sk_tex s) (sk_mat s) (material_offset s)
    (pending_material_applications s ++ [(model, material_idx)]).

(** [CoreSurface::set_material_offset] *)
Definition set_material_offset (off : Z) (s : CoreSurface) : CoreSurface :=
  mk_surface (surface_alive s) (mapped_data s) (sk_tex s) (sk_mat s)
    (delta_write off (material_offset s)) (pending_material_applications s).

(** The loop of [CoreSurface::apply_surface_materials], over the drained
    applications: each inserts a clone of the surface material. *)
Fixpoint apply_surface_materials (mat : Handle) (l : list (nat * Z)) (w : World) : World :=
  match l with
  | [] => w
  | (model, material_idx) :: l' =>
      match w_models w !! model with
      | Some m =>
          let '(m', sk') := insert_replacement material_idx mat m (w_sk w) in
          apply_surface_materials mat l'
            (mk_world sk' (<[model := m']> (w_models w)) (w_next_model w) (w_queue w))
      | None => apply_surface_materials mat l' w
      end
  end.

Definition with_sk (w : World) (sk : Sk) : World :=
  mk_world sk (w_models w) (w_next_model w) (w_queue w).

(** [CoreSurface::process]; [None] is a panic of one of its [unwrap]s. *)
Definition process (fr : SurfaceFrame) (s : CoreSurface) (w : World)
  : option (CoreSurface * World) :=
  if negb (surface_alive s) then Some (s, w) else
  (* self.sk_tex.get_or_init(..) *)
  let '(tex, sk1) :=
    match sk_tex s with
    | Some t => (t, w_sk w)
    | None => let '(sk, t) := alloc (w_sk w) in (t, own t (emit (EvTexCreate t) sk))
    end in
  (* self.sk_mat.get_or_init(..) *)
  let '(mat, sk2) :=
    match sk_mat s with
    | Some m => (m, sk1)
    | None =>
        let '(sk, m) := alloc sk1 in
        (m, own m (emit (EvMaterialCreate m tex)
                     (mk_sk (sk_next sk) (sk_models sk) (<[m := ∅]> (sk_materials sk))
                            (sk_refs sk) (sk_log sk))))
    end in
  let s1 := mk_surface true (mapped_data s) (Some tex) (Some mat) (material_offset s)
              (pending_material_applications s) in
  let w1 := with_sk w sk2 in
  if negb (import_ok fr) then Some (s1, w1)
  else if negb (buffer_mapped fr) then Some (s1, w1)
  else
    match smithay_tex fr with
    | None => None
    | Some (tid, _, _) =>
        let sk3 := emit (EvTexSetSurface tex tid) sk2 in
        let '(off', changed) := delta (material_offset s) in
        (* [material_set_queue_offset(mat, *material_offset as i32)] *)
        let sk4 := match changed with
                   | Some o => emit (EvMaterialSetQueueOffset mat (as_i32 o)) sk3
                   | None => sk3 end in
        match surface_size fr with
        | None => None
        | Some sz =>
            (* the previous [CoreSurfaceData] is dropped: its texture is queued *)
            let q := match mapped_data s with
                     | Some {| wl_tex := Some t |} => destroy_queue_add (QGlesTexture t) (w_queue w)
                     | _ => w_queue w end in
            let w2 := mk_world sk4 (w_models w) (w_next_model w) q in
            let s2 := mk_surface true (Some {| wl_tex := Some tid; size := sz |})
                        (Some tex) (Some mat) off' [] in
            Some (s2, apply_surface_materials mat (pending_material_applications s) w2)
        end
    end.

(** [impl Drop for CoreSurface]: texture and material are queued; then the
    fields are dropped, and a [CoreSurfaceData] queues its texture. *)
Definition surface_drop (s : CoreSurface) (q : list QueueEntry) : list QueueEntry :=
  let q1 := match sk_tex s with Some t => destroy_queue_add (QHandle t) q | None => q end in
  let q2 := match sk_mat s with Some m => destroy_queue_add (QHandle m) q1 | None => q1 end in
  match mapped_data s with
  | Some {| wl_tex := Some t |} => destroy_queue_add (QGlesTexture t) q2
  | _ => q2
  end.

(** [CoreSurface::size] *)
Definition CoreSurface_size (s : CoreSurface) : option (Z * Z) :=
  match mapped_data s with Some d => Some (size d) | None => None end.

(** The compositor side of [CoreSurface::add_to] / [from_wl_surface]: the
    per-[WlSurface] data maps (which hold the [Arc<CoreSurface>], here its
    identity) and [CORE_SURFACES], the live surfaces by identity. *)
Record SurfaceRegistry : Type := {
  data_maps : gmap nat nat;
  core_surfaces : gmap nat CoreSurface;
  next_surface : nat;
}.

(** [CoreSurface::add_to]: [insert_if_missing_threadsafe] runs the
    constructor, and so [CORE_SURFACES.add], only when the surface's data
    map has no [CoreSurface] yet. *)
Definition CoreSurface_add_to (surface : nat) (r : SurfaceRegistry) : SurfaceRegistry :=
  match data_maps r !! surface with
  | Some _ => r
  | None =>
      let id := next_surface r in
      {| data_maps := <[surface := id]> (data_maps r);
         core_surfaces := <[id := mk_surface true None None None (delta_new 0) []]>
                            (core_surfaces r);
         next_surface := S id |}
  end.

(** [CoreSurface::from_wl_surface]: [data_map.get::<Arc<CoreSurface>>().cloned()] *)
Definition from_wl_surface (surf : nat) (r : SurfaceRegistry) : option CoreSurface :=
  data_maps r !! surf ≫= fun id => core_surfaces r !! id.

(** ** The accept loop of [EventLoop::new] (src/core/eventloop.rs) *)

Inductive AcceptResult : Type :=
  | AcceptOk (conn : nat)
  | AcceptErr (err : string).

Inductive LoopEvent : Type :=
  | ClientCreated (conn : nat)
  | LogError (msg : string).

(** One iteration; [from_connection] is [Client::from_connection], [None]
    meaning [Ok]. *)
Definition accept_step (from_connection : nat -> option string) (r : AcceptResult)
  : list LoopEvent :=
  match r with
  | AcceptErr _ => []                                        (* else { continue } *)
  | AcceptOk conn =>
      match from_connection conn with
      | None => [ClientCreated conn]
      | Some e => [LogError ("Unable to create client from connection: " ++ e)%string]
      end
  end.

(** The [loop], run over the first accept outcomes. *)
Fixpoint event_loop (from_connection : nat -> option string) (rs : list AcceptResult)
  : list LoopEvent :=
  match rs with
  | [] => []
  | r :: rs' => accept_step from_connection r ++ event_loop from_connection rs'
  end.

(** ** Auxiliary predicates on traces *)

Definition is_log_error (e : LoopEvent) : bool :=
  match e with LogError _ => true | _ => false end.

Definition fails_to_create (from_connection : nat -> option string) (r : AcceptResult) : bool :=
  match r with AcceptOk c => bool_decide (is_Some (from_connection c)) | AcceptErr _ => false end.


(** The events each phase of [Model::draw] may emit. *)
Definition repl_ev (h : Handle) (e : GpuEvent) : Prop :=
  match e with
  | EvModelGetMaterial h' _ | EvModelSetMaterial h' _ _ => h' = h
  | _ => False
  end.

Definition param_ev (h : Handle) (e : GpuEvent) : Prop :=
  match e with
  | EvModelGetMaterial h' _ | EvModelSetMaterial h' _ _ => h' = h
  | EvMaterialCopy _ _ | EvMaterialSet _ _ _ => True
  | _ => False
  end.

Definition destroy_ev (e : GpuEvent) : Prop :=
  match e with EvDestroy _ => True | _ => False end.

Definition is_create (e : GpuEvent) : bool :=
  match e with EvModelCreateFile _ => true | _ => false end.

Definition is_model_draw (e : GpuEvent) : bool :=
  match e with EvModelDraw _ => true | _ => false end.

(** [sk'] extends the trace of [sk] with events satisfying [P] only. *)
Definition extends (P : GpuEvent -> Prop) (sk sk' : Sk) : Prop :=
  exists new, sk_log sk' = sk_log sk ++ new /\ Forall P new.

(** What the spec says of one replacement pass over the entries [l] of a
    realized model [h] whose slots are [slots]: each entry is attempted
    once, in order, and applied only if its slot exists. *)
Definition repl_events (h : Handle) (slots : gmap Z Handle) (l : list (Z * Handle))
  : list GpuEvent :=
  flat_map (fun '(i, r) =>
              EvModelGetMaterial h (as_i32 i)
              :: (if bool_decide (is_Some (slots !! as_i32 i))
                  then [EvModelSetMaterial h (as_i32 i) r] else [])) l.

(** Successive [set_material_parameter] calls for one key, in order. *)
Definition stage_parameters (idx : Z) (name : string) (vs : list MaterialParameter)
    (m : Model) : Model :=
  fold_left (fun m v => set_material_parameter idx name v m) vs m.

(** [sk] has a model [h] whose slots are those of [slots]. *)
Definition slots_like (sk : Sk) (h : Handle) (slots : gmap Z Handle) : Prop :=
  exists s', sk_models sk !! h = Some s' /\ forall i, is_Some (s' !! i) <-> is_Some (slots !! i).

(** From [sk1] to [sk2] the allocator only moved forward, and below [n]
    every material and every model other than [h] is unchanged. *)
Definition keeps (n : nat) (h : option Handle) (sk1 sk2 : Sk) : Prop :=
  (sk_next sk1 <= sk_next sk2)%nat /\
  forall k, (k < n)%nat ->
    sk_materials sk2 !! k = sk_materials sk1 !! k /\
    (Some k <> h -> sk_models sk2 !! k = sk_models sk1 !! k).

(** Number of destructions of [h] in a trace. *)
Definition destroy_count (h : Handle) (l : list GpuEvent) : nat :=
  length (filter (fun e => e = EvDestroy h) l).

(** Successive [process] calls, one per frame; [None] if one panics. *)
Fixpoint process_frames (frs : list SurfaceFrame) (s : CoreSurface) (w : World)
  : option (CoreSurface * World) :=
  match frs with
  | [] => Some (s, w)
  | fr :: frs' =>
      match process fr s w with
      | Some (s', w') => process_frames frs' s' w'
      | None => None
      end
  end.

(** Whether a graphics call sets a material's queue offset. *)
Definition is_queue_offset (e : GpuEvent) : bool :=
  match e with EvMaterialSetQueueOffset _ _ => true | _ => false end.

(** Graphics calls other than [material_set_*], and other than
    [model_set_material]. *)
Definition not_set (e : GpuEvent) : Prop :=
  match e with EvMaterialSet _ _ _ => False | _ => True end.

Definition not_set_material (e : GpuEvent) : Prop :=
  match e with EvModelSetMaterial _ _ _ => False | _ => True end.

(** Whether [apply_to_material] writes the value: a plain value always, a
    texture once its resource resolves to a png or jpg file that loads. *)
Definition applies (env : Env) (client : Client) (v : MaterialParameter) : bool :=
  match v with
  | MPValue _ _ => true
  | MPTexture resource =>
      match get_file env resource (base_resource_prefixes client) ["png"; "jpg"] with
      | None => false
      | Some texture_path => texture_file_ok env texture_path
      end
  end.

(** The values a trace writes for parameter [n] of slot [i] of model [h]: a
    [material_set_*] call on a material that the next call puts into that
    slot. *)
Definition key_write_at (h : Handle) (i : Z) (n : string) (e : GpuEvent)
    (next : option GpuEvent) : list MaterialParameter :=
  match e, next with
  | EvMaterialSet nm n' v, Some (EvModelSetMaterial h' i' nm') =>
      if bool_decide (nm' = nm /\ h' = h /\ i' = i /\ n' = n) then [v] else []
  | _, _ => []
  end.

Fixpoint key_writes (h : Handle) (i : Z) (n : string) (l : list GpuEvent)
  : list MaterialParameter :=
  match l with
  | [] => []
  | e :: rest => key_write_at h i n e (head rest) ++ key_writes h i n rest
  end.

(** ** Concrete configurations *)

(** Files: [/cube] decodes to a model with slots 0 and 1; [/broken] exists
    but does not decode; the resource [missing] resolves to no file. *)
Definition env_ex : Env := {|
  get_file := fun r _ _ => if String.eqb r "missing" then None else Some ("/" ++ r)%string;
  model_file := fun p => if String.eqb p "/cube" then Some [0; 1] else None;
  texture_file_ok := fun _ => true |}.

Definition client_ex : Client := {| base_resource_prefixes := ["/usr/share/stardust"] |}.

(** A realized model: graphics model 0 with slot 0 holding material 1;
    materials 2 and 3 are owned by the server (surface materials). *)
Definition sk_ex : Sk :=
  mk_sk 10%nat {[0%nat := {[0 := 1%nat]}]} {[1%nat := ∅; 2%nat := ∅; 3%nat := ∅]}
    {[0%nat := 1%nat; 2%nat := 1%nat; 3%nat := 1%nat]} [].

Definition model_ex (client : option Client) (params : gmap (Z * string) MaterialParameter)
  : Model :=
  {| enabled := true; space_client := client; resource_id := "cube";
     pending_model_path := Some "/cube"; pending_material_parameters := params;
     pending_material_replacements := ∅; sk_model := Some 0%nat |}.

(** Two graphics models, 0 and 5, both show the shared material 2 in slot 0. *)
Definition sk_shared : Sk :=
  mk_sk 10%nat {[0%nat := {[0 := 2%nat]}; 5%nat := {[0 := 2%nat]}]}
    {[2%nat := {["tint"%string := MPValue 0 [0]]}]}
    {[0%nat := 1%nat; 5%nat := 1%nat; 2%nat := 3%nat]} [].

Definition frame_ex : SurfaceFrame :=
  {| import_ok := true; buffer_mapped := true; smithay_tex := Some (7%nat, 64, 64);
     surface_size := Some (64, 64) |}.

(** A fresh surface that has staged its material for slot 0 of model 0. *)
Definition surface_ex : CoreSurface :=
  mk_surface true None None None (delta_new 0) [(0%nat, 0)].

Definition world_ex : World :=
  mk_world sk_ex {[0%nat := model_ex (Some client_ex) ∅]} 1%nat [].

Definition node_ex : Node :=
  {| node_has_spatial := true; node_has_drawable := false; node_enabled := true;
     node_client := Some client_ex |}.

Definition world_empty : World := mk_world (mk_sk 0%nat ∅ ∅ ∅ []) ∅ 0%nat [].

(** * Theorems *)

(** ** Delta *)

(** C7: [delta] reports the current value exactly once after it differs
    from the last observed one and records it; otherwise (unchanged value,
    second call, rewrite of the same value) it reports nothing. Concretely
    write 5, delta = Some 5, delta = None, write 5, delta = None, write 7,
    delta = Some 7. *)
Theorem delta_one_shot {A} `{EqDecision A} (d : Delta A) :
  (delta_value d ≠ delta_last d ->
     delta d = ({| delta_value := delta_value d; delta_last := delta_value d |},
                Some (delta_value d))) /\
  (delta_value d = delta_last d -> delta d = (d, None)) /\
  snd (delta (fst (delta d))) = None /\
  snd (delta (delta_write (delta_value d) (fst (delta d)))) = None /\
  (let d1 := delta_write 5 (delta_new 0) in
   let '(d2, r1) := delta d1 in
   let '(d3, r2) := delta d2 in
   let '(d4, r3) := delta (delta_write 5 d3) in
   let '(_, r4) := delta (delta_write 7 d4) in
   r1 = Some 5 /\ r2 = None /\ r3 = None /\ r4 = Some 7).
Proof.
  split; [| split; [| split; [| split]]].
  - intros Hne. unfold delta. destruct (decide _); [contradiction | reflexivity].
  - intros Heq. unfold delta. destruct (decide _); [| contradiction]. reflexivity.
  - unfold delta. destruct (decide (delta_value d = delta_last d)); simpl;
      destruct (decide _); simpl; congruence.
  - unfold delta, delta_write. destruct (decide (delta_value d = delta_last d)); simpl;
      destruct (decide _); simpl; congruence.
  - vm_compute. repeat split.
Qed.

(** ** Accept loop *)

Lemma event_loop_app (fc : nat -> option string) (rs1 rs2 : list AcceptResult) :
  event_loop fc (rs1 ++ rs2) = event_loop fc rs1 ++ event_loop fc rs2.
Proof.
  induction rs1 as [| r rs1 IH]; simpl; [reflexivity |].
  rewrite IH, app_assoc. reflexivity.
Qed.

(** C8 (as corrected): a failed accept leaves no trace at all, neither a
    log entry nor a client, and the loop goes on with the next connections;
    the only errors logged are failures to create a client from an accepted
    connection, one entry per such failure. *)
Theorem event_loop_accept_errors_skipped (fc : nat -> option string)
    (pre post : list AcceptResult) (err : string) :
  event_loop fc (pre ++ AcceptErr err :: post) = event_loop fc pre ++ event_loop fc post /\
  (forall rs : list AcceptResult,
     length (filter (fun e => is_log_error e = true) (event_loop fc rs))
     = length (filter (fun r => fails_to_create fc r = true) rs)).
Proof.
  split.
  - rewrite event_loop_app. reflexivity.
  - induction rs as [| r rs IH]; [reflexivity |].
    simpl. rewrite filter_app, length_app, IH, filter_cons.
    destruct r as [c | e]; simpl; [| reflexivity].
    unfold fails_to_create.
    destruct (fc c) as [msg |] eqn:E; simpl; reflexivity.
Qed.

(** C8 counterexample: a failed accept followed by a good one: the failure
    is not logged (nothing is logged at all), the next connection is served. *)
Lemma event_loop_accept_error_not_logged :
  event_loop (fun _ => None) [AcceptErr "EMFILE"; AcceptOk 0%nat] = [ClientCreated 0%nat] /\
  filter (fun e => is_log_error e = true)
    (event_loop (fun _ => None) [AcceptErr "EMFILE"; AcceptOk 0%nat]) = [].
Proof. split; reflexivity. Qed.

(** ** Traces of the draw phases *)

Section Traces.

Lemma extends_refl P sk : extends P sk sk.
Proof. exists []. rewrite app_nil_r. auto. Qed.

Lemma extends_trans P sk1 sk2 sk3 :
  extends P sk1 sk2 -> extends P sk2 sk3 -> extends P sk1 sk3.
Proof.
  intros [n1 [H1 F1]] [n2 [H2 F2]]. exists (n1 ++ n2).
  rewrite H2, H1, app_assoc. split; [reflexivity | apply Forall_app; auto].
Qed.

Lemma extends_weaken (P Q : GpuEvent -> Prop) sk sk' :
  (forall e, P e -> Q e) -> extends P sk sk' -> extends Q sk sk'.
Proof. intros HPQ [n [H F]]. exists n. split; [exact H | eapply Forall_impl; eauto]. Qed.

Lemma emit_mk_extends (P : GpuEvent -> Prop) e n mo ma r (sk : Sk) :
  P e -> extends P sk (emit e (mk_sk n mo ma r (sk_log sk))).
Proof. intros He. exists [e]. split; [reflexivity | constructor; auto]. Qed.

Lemma emit_extends (P : GpuEvent -> Prop) e sk : P e -> extends P sk (emit e sk).
Proof. intros He. exists [e]. split; [reflexivity | constructor; auto]. Qed.

Lemma release_extends h sk : extends (fun e => e = EvDestroy h) sk (release h sk).
Proof.
  unfold release. destruct (sk_refs sk !! h) as [[| [| n]] |].
  - apply emit_mk_extends. reflexivity.
  - apply emit_mk_extends. reflexivity.
  - exists []. rewrite app_nil_r. auto.
  - apply extends_refl.
Qed.

Lemma release_all_extends l : forall sk,
  extends (fun e => exists h, e = EvDestroy h /\ h ∈ l) sk (release_all l sk).
Proof.
  induction l as [| h l IH]; intros sk; simpl; [apply extends_refl |].
  eapply extends_trans.
  - eapply extends_weaken; [| apply release_extends].
    intros e ->. exists h. split; [reflexivity | left].
  - eapply extends_weaken; [| apply IH].
    intros e [h' [-> Hin]]. exists h'. split; [reflexivity | right; exact Hin].
Qed.

Lemma model_get_material_extends (P : GpuEvent -> Prop) model idx sk sk1 found :
  model_get_material model idx sk = (sk1, found) -> P (EvModelGetMaterial model idx) ->
  extends P sk sk1 /\ sk_models sk1 = sk_models sk /\ sk_materials sk1 = sk_materials sk /\
  sk_next sk1 = sk_next sk /\ sk_refs sk1 = sk_refs sk /\
  found = (sk_models sk !! model ≫= fun slots => slots !! idx).
Proof.
  unfold model_get_material. intros E HP. injection E as <- <-.
  repeat split; try reflexivity. apply emit_extends. exact HP.
Qed.

Lemma model_set_material_extends (P : GpuEvent -> Prop) model idx mat sk :
  P (EvModelSetMaterial model idx mat) -> extends P sk (model_set_material model idx mat sk).
Proof. intros HP. unfold model_set_material. apply emit_mk_extends. exact HP. Qed.

Lemma material_copy_extends (P : GpuEvent -> Prop) src sk sk1 h :
  material_copy src sk = (sk1, h) -> P (EvMaterialCopy src h) -> extends P sk sk1.
Proof.
  unfold material_copy, alloc. intros E HP. injection E as <- <-.
  apply emit_mk_extends. exact HP.
Qed.

Lemma apply_replacements_extends h l : forall sk,
  extends (repl_ev h) sk (apply_replacements h l sk).
Proof.
  induction l as [| [i r] l IH]; intros sk; cbn [apply_replacements]; [apply extends_refl |].
  destruct (model_get_material h (as_i32 i) sk) as [sk1 found] eqn:E.
  destruct (model_get_material_extends (repl_ev h) _ _ _ _ _ E eq_refl) as [Hx _].
  eapply extends_trans; [exact Hx |].
  eapply extends_trans; [| apply IH].
  destruct found.
  - apply model_set_material_extends. reflexivity.
  - apply extends_refl.
Qed.

Lemma apply_to_material_extends env c v mat name sk :
  extends (fun e => exists n v', e = EvMaterialSet mat n v')
    sk (apply_to_material env c v mat name sk).
Proof.
  unfold apply_to_material, material_set.
  destruct v as [? ? | r].
  - apply emit_mk_extends. eauto.
  - destruct (get_file env r _ _) as [p |]; [| apply extends_refl].
    destruct (texture_file_ok env p); [apply emit_mk_extends; eauto | apply extends_refl].
Qed.

Lemma apply_parameters_extends env c h l : forall sk,
  extends (param_ev h) sk (apply_parameters env c h l sk).
Proof.
  induction l as [| [[i name] v] l IH]; intros sk; cbn [apply_parameters]; [apply extends_refl |].
  destruct (model_get_material h i sk) as [sk1 found] eqn:E.
  destruct (model_get_material_extends (param_ev h) _ _ _ _ _ E eq_refl) as [Hx _].
  eapply extends_trans; [exact Hx |].
  destruct found as [mat |]; [| apply IH].
  destruct (material_copy mat sk1) as [sk2 nm] eqn:E2.
  eapply extends_trans; [eapply material_copy_extends; [exact E2 | exact I] |].
  eapply extends_trans.
  - eapply extends_weaken; [| apply apply_to_material_extends].
    intros e [n [v' ->]]. exact I.
  - eapply extends_trans; [| apply IH].
    apply model_set_material_extends. reflexivity.
Qed.

End Traces.

(** ** Model::draw: lazy construction and staging *)

Section Draw.

Lemma with_sk_model_id (m : Model) : with_sk_model m (sk_model m) = m.
Proof. destruct m; reflexivity. Qed.

Lemma get_or_try_init_model env m sk m1 sk1 res :
  get_or_try_init env m sk = (m1, sk1, res) -> m1 = with_sk_model m res.
Proof.
  unfold get_or_try_init. destruct (sk_model m) as [h |] eqn:Hm.
  - intros E. injection E as <- <- <-. rewrite <- Hm. symmetry. apply with_sk_model_id.
  - destruct (construct env m sk) as [sk' [h |]].
    + intros E. injection E as <- <- <-. reflexivity.
    + intros E. injection E as <- <- <-. rewrite <- Hm. symmetry. apply with_sk_model_id.
Qed.

Lemma get_or_try_init_realized env m sk h :
  sk_model m = Some h -> get_or_try_init env m sk = (m, sk, Some h).
Proof. unfold get_or_try_init. intros ->. reflexivity. Qed.

(** The shape of a draw call once the model is realized. *)
Lemma draw_realized env m sk h :
  sk_model m = Some h ->
  draw env m sk =
  (let repl := map_to_list (pending_material_replacements m) in
   let sk3 := release_all (map snd repl) (apply_replacements h repl sk) in
   let m2 := with_replacements m ∅ in
   let '(m3, sk4) :=
     match space_client m2 with
     | Some client =>
         (with_parameters m2 ∅,
          apply_parameters env client h (map_to_list (pending_material_parameters m2)) sk3)
     | None => (m2, sk3)
     end in
   (m3, emit (EvModelDraw h) sk4)).
Proof. intros Hm. unfold draw. rewrite (get_or_try_init_realized env m sk h Hm). reflexivity. Qed.

Lemma model_set_material_slots_like h slots idx mat sk :
  slots_like sk h slots -> slots_like (model_set_material h idx mat sk) h slots.
Proof.
  intros [s' [Hs Hiff]]. unfold model_set_material, slots_like. simpl.
  rewrite lookup_alter_eq, Hs. simpl. eexists; split; [reflexivity |].
  intros i. rewrite <- Hiff. destruct (s' !! idx) as [x |] eqn:Hx; [| reflexivity].
  destruct (decide (idx = i)) as [-> | Hne].
  - rewrite lookup_insert_eq, Hx. split; eauto.
  - rewrite lookup_insert_ne by exact Hne. reflexivity.
Qed.

Lemma apply_replacements_log h slots l : forall sk,
  slots_like sk h slots ->
  sk_log (apply_replacements h l sk) = sk_log sk ++ repl_events h slots l /\
  slots_like (apply_replacements h l sk) h slots.
Proof.
  induction l as [| [i r] l IH]; intros sk Hsl; cbn [apply_replacements repl_events flat_map].
  - rewrite app_nil_r. auto.
  - destruct (model_get_material h (as_i32 i) sk) as [sk1 found] eqn:E.
    destruct (model_get_material_extends (fun _ => True) _ _ _ _ _ E I)
      as [_ [Hmo [_ [_ [_ Hf]]]]].
    assert (Hlog1 : sk_log sk1 = sk_log sk ++ [EvModelGetMaterial h (as_i32 i)]).
    { unfold model_get_material in E. injection E as <- _. reflexivity. }
    assert (Hsl1 : slots_like sk1 h slots).
    { destruct Hsl as [s' [Hs Hiff]]. exists s'. rewrite Hmo. auto. }
    destruct Hsl as [s' [Hs Hiff]].
    rewrite Hs in Hf. simpl in Hf.
    destruct found as [x |].
    + assert (Hin : bool_decide (is_Some (slots !! as_i32 i)) = true).
      { apply bool_decide_eq_true. apply Hiff. rewrite <- Hf. eauto. }
      rewrite Hin.
      destruct (IH (model_set_material h (as_i32 i) r sk1)) as [IHlog IHsl];
        [apply model_set_material_slots_like; exact Hsl1 |].
      rewrite IHlog.
      change (sk_log (model_set_material h (as_i32 i) r sk1))
        with (sk_log sk1 ++ [EvModelSetMaterial h (as_i32 i) r]).
      rewrite Hlog1.
      split; [| exact IHsl]. rewrite <- !app_assoc. reflexivity.
    + assert (Hin : bool_decide (is_Some (slots !! as_i32 i)) = false).
      { apply bool_decide_eq_false. rewrite <- Hiff, <- Hf. intros [? ?]; discriminate. }
      rewrite Hin.
      destruct (IH sk1 Hsl1) as [IHlog IHsl].
      rewrite IHlog, Hlog1. split; [| exact IHsl]. rewrite <- !app_assoc. reflexivity.
Qed.

End Draw.

(** ** Replacement staging (C1) and clearing (C5) *)

(** C1 (as corrected): staged replacements are keyed by slot: staging one
    for a slot that already has an unconsumed one overwrites it. A draw call
    on a realized model attempts every entry of the replacement map exactly
    once (the keys are distinct), in the map's iteration order, applies it
    only if its slot exists, and leaves the map empty whatever the outcome. *)
Theorem replacements_keyed_each_attempted_once env (m : Model) (sk : Sk) h
    (slots : gmap Z Handle) (idx : Z) (mat : Handle) :
  sk_model m = Some h -> sk_models sk !! h = Some slots ->
  pending_material_replacements (insert_replacement idx mat m sk).1
    = <[idx := mat]> (pending_material_replacements m) /\
  NoDup (map_to_list (pending_material_replacements m)).*1 /\
  pending_material_replacements (draw env m sk).1 = ∅ /\
  exists rest, sk_log (draw env m sk).2
    = sk_log sk ++ repl_events h slots (map_to_list (pending_material_replacements m)) ++ rest.
Proof.
  intros Hm Hs. split; [reflexivity |]. split; [apply NoDup_fst_map_to_list |].
  rewrite (draw_realized env m sk h Hm). cbv zeta.
  set (repl := map_to_list (pending_material_replacements m)).
  destruct (apply_replacements_log h slots repl sk) as [Hlog _].
  { exists slots. split; [exact Hs | reflexivity]. }
  destruct (release_all_extends (map snd repl) (apply_replacements h repl sk))
    as [n1 [H1 _]].
  destruct (space_client (with_replacements m ∅)) as [c |]; cbn [fst snd]; split; try reflexivity.
  - destruct (apply_parameters_extends env c h
                (map_to_list (pending_material_parameters (with_replacements m ∅)))
                (release_all (map snd repl) (apply_replacements h repl sk))) as [n2 [H2 _]].
    exists (n1 ++ n2 ++ [EvModelDraw h]).
    change (sk_log (emit (EvModelDraw h) ?x)) with (sk_log x ++ [EvModelDraw h]).
    rewrite H2, H1, Hlog. rewrite <- !app_assoc. reflexivity.
  - exists (n1 ++ [EvModelDraw h]).
    change (sk_log (emit (EvModelDraw h) ?x)) with (sk_log x ++ [EvModelDraw h]).
    rewrite H1, Hlog. rewrite <- !app_assoc. reflexivity.
Qed.

Lemma replacements_keyed_each_attempted_once_witness :
  sk_model (model_ex None ∅) = Some 0%nat /\ sk_models sk_ex !! 0%nat = Some {[0 := 1%nat]} /\
  pending_material_replacements (insert_replacement 0 2%nat (model_ex None ∅) sk_ex).1
    = <[0 := 2%nat]> (pending_material_replacements (model_ex None ∅)).
Proof.
  split; [reflexivity |]. split; [reflexivity |].
  apply (replacements_keyed_each_attempted_once env_ex (model_ex None ∅) sk_ex 0%nat
           {[0 := 1%nat]} 0 2%nat); reflexivity.
Defined.

(** C1 counterexample: two replacements staged for slot 0 (materials 2,
    then 3) before a draw pass on a realized model whose slot 0 exists: the
    pass makes one attempt only, and material 2 is never applied. *)
Lemma replacements_not_fifo :
  let '(m1, sk1) := insert_replacement 0 2%nat (model_ex None ∅) sk_ex in
  let '(m2, sk2) := insert_replacement 0 3%nat m1 sk1 in
  sk_log (draw env_ex m2 sk2).2
    = [EvModelGetMaterial 0%nat 0; EvModelSetMaterial 0%nat 0 3%nat; EvModelDraw 0%nat].
Proof. vm_compute. reflexivity. Qed.

(** C5 (as corrected): after a draw call that leaves the model realized,
    the replacement map is empty; the parameter map is empty when the
    model's node and client are still alive, and left as it was otherwise. *)
Theorem draw_clears_staging env (m : Model) (sk : Sk) :
  is_Some (sk_model (draw env m sk).1) ->
  pending_material_replacements (draw env m sk).1 = ∅ /\
  pending_material_parameters (draw env m sk).1
    = match space_client m with
      | Some _ => ∅
      | None => pending_material_parameters m
      end.
Proof.
  unfold draw. destruct (get_or_try_init env m sk) as [[m1 sk1] res] eqn:G.
  apply get_or_try_init_model in G. subst m1.
  destruct res as [h |]; simpl.
  - destruct (space_client m) as [c |]; simpl; intros _; split; reflexivity.
  - intros [? Hc]. discriminate Hc.
Qed.

Lemma draw_clears_staging_witness :
  is_Some (sk_model (draw env_ex (model_ex (Some client_ex) ∅) sk_ex).1) /\
  pending_material_replacements (draw env_ex (model_ex (Some client_ex) ∅) sk_ex).1 = ∅.
Proof.
  assert (H : is_Some (sk_model (draw env_ex (model_ex (Some client_ex) ∅) sk_ex).1))
    by (vm_compute; eexists; reflexivity).
  split; [exact H | apply (draw_clears_staging env_ex _ _ H)].
Defined.

(** C5 counterexample: a realized model whose client is gone keeps its
    staged parameter after a draw call. *)
Lemma draw_keeps_parameters_without_client :
  let m := model_ex None {[(0, "color"%string) := MPValue 0 [1]]} in
  is_Some (sk_model (draw env_ex m sk_ex).1) /\
  pending_material_parameters (draw env_ex m sk_ex).1
    = {[(0, "color"%string) := MPValue 0 [1]]}.
Proof. vm_compute. split; [eexists |]; reflexivity. Qed.

(** ** Lazy construction (C2) and publication (C3) *)

Section Construction.

Lemma draw_construction_fails env m sk p :
  sk_model m = None -> pending_model_path m = Some p -> model_file env p = None ->
  draw env m sk = (m, emit (EvModelCreateFile p) sk).
Proof.
  intros Hm Hp Hf. unfold draw, get_or_try_init, construct, model_create_file.
  rewrite Hm, Hp, Hf. reflexivity.
Qed.

Lemma draw_realized_extends env m sk h :
  sk_model m = Some h ->
  sk_model (draw env m sk).1 = Some h /\
  extends (fun e => is_create e = false) sk (draw env m sk).2.
Proof.
  intros Hm. rewrite (draw_realized env m sk h Hm). cbv zeta.
  set (repl := map_to_list (pending_material_replacements m)).
  assert (H1 : extends (fun e => is_create e = false) sk
                 (release_all (map snd repl) (apply_replacements h repl sk))).
  { eapply extends_trans.
    - eapply extends_weaken; [| apply apply_replacements_extends].
      intros [] He; simpl in *; tauto.
    - eapply extends_weaken; [| apply release_all_extends].
      intros e [h' [-> _]]. reflexivity. }
  destruct (space_client (with_replacements m ∅)) as [c |]; cbn [fst snd];
    (split; [exact Hm |]).
  - eapply extends_trans; [exact H1 |].
    eapply extends_trans; [| apply emit_extends; reflexivity].
    eapply extends_weaken; [| apply apply_parameters_extends].
    intros [] He; simpl in *; tauto.
  - eapply extends_trans; [exact H1 |]. apply emit_extends. reflexivity.
Qed.

End Construction.

(** C2 (as corrected): a draw call on an unrealized model whose file does
    not decode attempts the construction, fails without a log entry, draws
    nothing and changes nothing else, so [n] calls make [n] attempts; once
    the model is realized no call attempts the construction again. A
    resource that resolves to no file makes [add_to] fail and drop the model,
    which leaves the registry as it was. *)
Theorem construction_retried_every_draw env (m : Model) (sk : Sk) (p : string) :
  sk_model m = None -> pending_model_path m = Some p -> model_file env p = None ->
  (forall n, (draw_n n env m sk).1 = m /\
             sk_log (draw_n n env m sk).2 = sk_log sk ++ repeat (EvModelCreateFile p) n) /\
  (forall (m' : Model) (sk' : Sk) h n, sk_model m' = Some h ->
     sk_model (draw_n n env m' sk').1 = Some h /\
     extends (fun e => is_create e = false) sk' (draw_n n env m' sk').2) /\
  (forall node rid w c, node_has_spatial node = true -> node_has_drawable node = false ->
     node_client node = Some c -> w_models w !! w_next_model w = None ->
     get_file env rid (base_resource_prefixes c) ["glb"; "gltf"] = None ->
     (add_to env node rid w).1 = inl ResourceNotFound /\
     w_models (add_to env node rid w).2 = w_models w).
Proof.
  intros Hm Hp Hf. split; [| split].
  - intros n. revert sk. induction n as [| n IH]; intros sk.
    + simpl. rewrite app_nil_r. auto.
    + cbn [draw_n]. rewrite (draw_construction_fails env m sk p Hm Hp Hf).
      destruct (IH (emit (EvModelCreateFile p) sk)) as [IH1 IH2].
      split; [exact IH1 |]. rewrite IH2. simpl. rewrite <- app_assoc. reflexivity.
  - intros m' sk' h n. revert m' sk'. induction n as [| n IH]; intros m' sk' Hm'.
    + split; [exact Hm' | apply extends_refl].
    + cbn [draw_n].
      destruct (draw_realized_extends env m' sk' h Hm') as [Hd1 Hd2].
      destruct (draw env m' sk') as [m1 sk1]. simpl in Hd1, Hd2.
      destruct (IH m1 sk1 Hd1) as [IH1 IH2].
      split; [exact IH1 | eapply extends_trans; eauto].
  - intros node rid w c Hsp Hdr Hc Hfresh Hget.
    unfold add_to, add_to_publish. rewrite Hsp, Hdr. simpl.
    unfold add_to_resolve. simpl. rewrite lookup_insert_eq, Hc. simpl. rewrite Hget.
    unfold drop_model. simpl. rewrite lookup_insert_eq. simpl.
    split; [reflexivity |]. apply delete_insert_id. exact Hfresh.
Qed.

Lemma construction_retried_every_draw_witness :
  let m := with_sk_model (with_path (model_ex None ∅) (Some "/broken")) None in
  sk_model m = None /\ pending_model_path m = Some "/broken"%string /\
  model_file env_ex "/broken" = None /\
  sk_log (draw_n 3 env_ex m sk_ex).2 = repeat (EvModelCreateFile "/broken") 3.
Proof.
  cbv zeta. split; [reflexivity |]. split; [reflexivity |]. split; [reflexivity |].
  apply (construction_retried_every_draw env_ex _ sk_ex "/broken"); reflexivity.
Defined.

(** C2 counterexample: two draw calls on a model whose file does not decode
    make two construction attempts. *)
Lemma construction_attempted_twice :
  let m := with_sk_model (with_path (model_ex None ∅) (Some "/broken")) None in
  sk_log (draw_n 2 env_ex m sk_ex).2
    = [EvModelCreateFile "/broken"; EvModelCreateFile "/broken"].
Proof. vm_compute. reflexivity. Qed.

(** C3 (as corrected): [add_to] publishes the model in the registry before
    its descriptor (the resolved path) is set. A draw call in between sees
    no descriptor: it makes no construction attempt and has no effect, and
    the model is left as it was, so the later resolution sets the path on
    it; once that path names a file that decodes, a draw call constructs
    the model. *)
Theorem model_published_before_descriptor env node rid w id w1 :
  add_to_publish node rid w = inr (id, w1) ->
  exists m, w_models w1 !! id = Some m /\ pending_model_path m = None /\
    sk_model m = None /\ enabled m = node_enabled node /\
    (forall sk, draw env m sk = (m, sk)) /\
    (forall p slots sk, model_file env p = Some slots ->
       exists h, sk_model (draw env (with_path m (Some p)) sk).1 = Some h) /\
    (forall w2 c p, w_models w2 !! id = Some m -> node_client node = Some c ->
       get_file env rid (base_resource_prefixes c) ["glb"; "gltf"] = Some p ->
       add_to_resolve env node id w2
       = (None, mk_world (w_sk w2) (<[id := with_path m (Some p)]> (w_models w2))
                         (w_next_model w2) (w_queue w2))).
Proof.
  unfold add_to_publish.
  destruct (node_has_spatial node); [| discriminate]. simpl.
  destruct (node_has_drawable node); [discriminate |].
  intros E. injection E as <- <-.
  eexists. simpl. rewrite lookup_insert_eq.
  split; [reflexivity |]. split; [reflexivity |]. split; [reflexivity |].
  split; [reflexivity |]. split; [intros sk; reflexivity |].
  split.
  { intros p slots sk Hf. unfold draw, get_or_try_init, construct. cbn [sk_model with_path with_sk_model pending_model_path].
    unfold model_create_file. rewrite Hf.
    destruct (alloc_slots slots ∅ _) as [sk1 mats].
    destruct (alloc sk1) as [sk2 h0].
    destruct (model_copy _ _) as [sk3 h].
    cbn. repeat match goal with
                | |- context [match ?x with Some _ => _ | None => _ end] => destruct x
                end; cbn; exists h; reflexivity. }
  intros w2 c p Hw2 Hc Hg. unfold add_to_resolve. rewrite Hw2, Hc. simpl.
  rewrite Hg. reflexivity.
Qed.

Lemma model_published_before_descriptor_witness :
  add_to_publish node_ex "cube" world_empty
  = inr (0%nat, mk_world (mk_sk 0%nat ∅ ∅ ∅ [])
                   {[0%nat := with_sk_model (with_path (model_ex (Some client_ex) ∅) None) None]}
                   1%nat []) /\
  exists m, w_models (mk_world (mk_sk 0%nat ∅ ∅ ∅ [])
                   {[0%nat := with_sk_model (with_path (model_ex (Some client_ex) ∅) None) None]}
                   1%nat []) !! 0%nat = Some m /\ pending_model_path m = None /\
    exists h, sk_model (draw env_ex (with_path m (Some "/cube")) sk_ex).1 = Some h.
Proof.
  assert (H : add_to_publish node_ex "cube" world_empty
              = inr (0%nat, mk_world (mk_sk 0%nat ∅ ∅ ∅ [])
                   {[0%nat := with_sk_model (with_path (model_ex (Some client_ex) ∅) None) None]}
                   1%nat [])) by reflexivity.
  split; [exact H |].
  destruct (model_published_before_descriptor env_ex node_ex "cube" world_empty _ _ H)
    as [m [Hl [Hp [_ [_ [_ [Hd _]]]]]]].
  exists m. split; [exact Hl |]. split; [exact Hp |].
  exact (Hd "/cube"%string [0; 1] sk_ex eq_refl).
Defined.

(** C3 counterexample: right after the registry step of [add_to], the
    registry holds an enabled model without a descriptor, and a draw pass
    run at that point visits it. *)
Lemma registered_model_without_descriptor :
  match add_to_publish node_ex "cube" world_empty with
  | inr (id, w1) =>
      (exists m, w_models w1 !! id = Some m /\ enabled m = true /\ pending_model_path m = None) /\
      (exists m, w_models (draw_all env_ex w1) !! id = Some m /\ pending_model_path m = None)
  | inl _ => False
  end.
Proof. vm_compute. split; eexists; split; try split; reflexivity. Qed.

(** ** Parameter staging (C4) *)

Section Parameters.

Lemma release_models h sk : sk_models (release h sk) = sk_models sk.
Proof. unfold release. destruct (sk_refs sk !! h) as [[| [| n]] |]; reflexivity. Qed.

Lemma release_all_models l : forall sk, sk_models (release_all l sk) = sk_models sk.
Proof.
  induction l as [| h l IH]; intros sk; simpl; [reflexivity |].
  rewrite IH. apply release_models.
Qed.

Lemma stage_parameters_params idx name vs v : forall m,
  pending_material_parameters (stage_parameters idx name (vs ++ [v]) m)
  = <[(as_i32 idx, name) := v]> (pending_material_parameters m).
Proof.
  unfold stage_parameters in *.
  induction vs as [| v0 vs IH]; intros m; [reflexivity |].
  cbn [fold_left app]. rewrite IH. simpl. apply insert_insert_eq.
Qed.

Lemma stage_parameters_fields idx name vs : forall m,
  sk_model (stage_parameters idx name vs m) = sk_model m /\
  space_client (stage_parameters idx name vs m) = space_client m /\
  pending_material_replacements (stage_parameters idx name vs m)
  = pending_material_replacements m.
Proof.
  unfold stage_parameters in *.
  induction vs as [| v0 vs IH]; intros m; [auto |].
  cbn [fold_left]. rewrite !(proj1 (IH _)), (proj1 (proj2 (IH _))), (proj2 (proj2 (IH _))).
  auto.
Qed.

End Parameters.

(** ** Copy-on-write of materials (C9) *)

Section CopyOnWrite.

Variable n : nat.

Lemma keeps_refl h sk : keeps n h sk sk.
Proof. split; [lia | auto]. Qed.

Lemma keeps_trans h sk1 sk2 sk3 : keeps n h sk1 sk2 -> keeps n h sk2 sk3 -> keeps n h sk1 sk3.
Proof.
  intros [N1 K1] [N2 K2]. split; [lia |].
  intros k Hk. destruct (K1 k Hk) as [A1 B1], (K2 k Hk) as [A2 B2].
  split; [congruence | intros Hne; rewrite B2, B1 by exact Hne; reflexivity].
Qed.

Lemma keeps_none h sk1 sk2 : keeps n None sk1 sk2 -> keeps n h sk1 sk2.
Proof.
  intros [N K]. split; [exact N |]. intros k Hk. destruct (K k Hk) as [A B].
  split; [exact A | intros _; apply B; discriminate].
Qed.

Lemma keeps_fresh h sk1 sk2 : (n <= h)%nat -> keeps n (Some h) sk1 sk2 -> keeps n None sk1 sk2.
Proof.
  intros Hh [N K]. split; [exact N |]. intros k Hk. destruct (K k Hk) as [A B].
  split; [exact A | intros _; apply B; intros E; injection E; lia].
Qed.

Lemma keeps_log h n' mo ma r l sk :
  n' = sk_next sk -> mo = sk_models sk -> ma = sk_materials sk ->
  keeps n h sk (mk_sk n' mo ma r l).
Proof. intros -> -> ->. split; [simpl; lia | auto]. Qed.

Lemma keeps_emit h e sk : keeps n h sk (emit e sk).
Proof. apply keeps_log; reflexivity. Qed.

Lemma keeps_release h x sk : keeps n h sk (release x sk).
Proof.
  unfold release. destruct (sk_refs sk !! x) as [[| [| m]] |];
    try (apply keeps_log; reflexivity); apply keeps_refl.
Qed.

Lemma keeps_release_all h l : forall sk, keeps n h sk (release_all l sk).
Proof.
  induction l as [| x l IH]; intros sk; simpl; [apply keeps_refl |].
  eapply keeps_trans; [apply keeps_release | apply IH].
Qed.

Lemma keeps_model_set_material h idx mat sk :
  keeps n (Some h) sk (model_set_material h idx mat sk).
Proof.
  split; [simpl; lia |]. intros k Hk. simpl. split; [reflexivity |].
  intros Hne. rewrite lookup_alter_ne; [reflexivity | intros E; apply Hne; rewrite E; reflexivity].
Qed.

Lemma keeps_material_set h mat name v sk :
  (n <= mat)%nat -> keeps n h sk (material_set mat name v sk).
Proof.
  intros Hm. split; [simpl; lia |]. intros k Hk. simpl.
  split; [rewrite lookup_alter_ne; [reflexivity | lia] | reflexivity].
Qed.

Lemma keeps_apply_to_material h env c v mat name sk :
  (n <= mat)%nat -> keeps n h sk (apply_to_material env c v mat name sk).
Proof.
  intros Hm. unfold apply_to_material. destruct v as [? ? | r].
  - apply keeps_material_set. exact Hm.
  - destruct (get_file env r _ _) as [p |]; [| apply keeps_refl].
    destruct (texture_file_ok env p); [apply keeps_material_set; exact Hm | apply keeps_refl].
Qed.

Lemma keeps_material_copy h mat sk sk1 nm :
  (n <= sk_next sk)%nat -> material_copy mat sk = (sk1, nm) ->
  keeps n h sk sk1 /\ nm = sk_next sk.
Proof.
  unfold material_copy, alloc. intros Hn E. injection E as <- <-.
  split; [| reflexivity]. split; [simpl; lia |]. intros k Hk. simpl.
  split; [rewrite lookup_insert_ne; [reflexivity | lia] | reflexivity].
Qed.

Lemma keeps_apply_replacements h l : forall sk,
  keeps n (Some h) sk (apply_replacements h l sk).
Proof.
  induction l as [| [i r] l IH]; intros sk; cbn [apply_replacements]; [apply keeps_refl |].
  destruct (model_get_material h (as_i32 i) sk) as [sk1 found] eqn:E.
  unfold model_get_material in E. injection E as <- _.
  eapply keeps_trans; [apply keeps_emit |].
  eapply keeps_trans; [| apply IH].
  destruct found; [apply keeps_model_set_material | apply keeps_refl].
Qed.

Lemma keeps_apply_parameters env c h l : forall sk,
  (n <= sk_next sk)%nat -> keeps n (Some h) sk (apply_parameters env c h l sk).
Proof.
  induction l as [| [[i name] v] l IH]; intros sk Hn; cbn [apply_parameters];
    [apply keeps_refl |].
  destruct (model_get_material h i sk) as [sk1 found] eqn:E.
  unfold model_get_material in E. injection E as <- _.
  assert (K1 : keeps n (Some h) sk (emit (EvModelGetMaterial h i) sk)) by apply keeps_emit.
  destruct found as [mat |].
  - destruct (material_copy mat (emit (EvModelGetMaterial h i) sk)) as [sk2 nm] eqn:E2.
    destruct (keeps_material_copy (Some h) mat (emit (EvModelGetMaterial h i) sk) sk2 nm
                ltac:(simpl; exact Hn) E2) as [K2 ->].
    assert (K3 : keeps n (Some h) sk2
                   (apply_to_material env c v (sk_next (emit (EvModelGetMaterial h i) sk)) name sk2))
      by (apply keeps_apply_to_material; exact Hn).
    assert (K4 := keeps_model_set_material h i (sk_next (emit (EvModelGetMaterial h i) sk))
                    (apply_to_material env c v (sk_next (emit (EvModelGetMaterial h i) sk)) name sk2)).
    eapply keeps_trans; [exact K1 |]. eapply keeps_trans; [exact K2 |].
    eapply keeps_trans; [exact K3 |]. eapply keeps_trans; [exact K4 |].
    apply IH. destruct K2 as [N2 _], K3 as [N3 _], K4 as [N4 _]. simpl in *. lia.
  - eapply keeps_trans; [exact K1 |]. apply IH. simpl. exact Hn.
Qed.

Lemma keeps_alloc_slots slots : forall acc sk sk1 mats,
  (n <= sk_next sk)%nat -> alloc_slots slots acc sk = (sk1, mats) -> keeps n None sk sk1.
Proof.
  induction slots as [| i rest IH]; intros acc sk sk1 mats Hn E; simpl in E.
  - injection E as <- _. apply keeps_refl.
  - eapply keeps_trans; [| eapply IH; [| exact E]; simpl; lia].
    split; [simpl; lia |]. intros k Hk. simpl.
    split; [rewrite lookup_insert_ne; [reflexivity | lia] | reflexivity].
Qed.

Lemma keeps_construct env m sk sk1 res :
  (n <= sk_next sk)%nat -> construct env m sk = (sk1, res) ->
  keeps n None sk sk1 /\ (forall h, res = Some h -> (n <= h)%nat).
Proof.
  intros Hn. unfold construct.
  destruct (pending_model_path m) as [path |];
    [| intros E; injection E as <- <-; split; [apply keeps_refl | discriminate]].
  unfold model_create_file.
  destruct (model_file env path) as [slots |];
    [| intros E; injection E as <- <-; split; [apply keeps_emit | discriminate]].
  destruct (alloc_slots slots ∅ (emit (EvModelCreateFile path) sk)) as [skA mats] eqn:EA.
  assert (KA : keeps n None (emit (EvModelCreateFile path) sk) skA)
    by (eapply keeps_alloc_slots; [simpl; exact Hn | exact EA]).
  destruct KA as [NA KA']. simpl in NA.
  unfold alloc, model_copy, alloc, own. simpl. intros E. injection E as <- <-.
  split; [| intros h Eh; injection Eh as <-; simpl; lia].
  split; [simpl; lia |]. intros k Hk. destruct (KA' k Hk) as [A B]. simpl in *.
  split; [exact A |]. intros _.
  rewrite lookup_insert_ne by lia. rewrite lookup_insert_ne by lia. apply B. discriminate.
Qed.

End CopyOnWrite.

Lemma draw_after_init env m sk m1 sk1 h :
  get_or_try_init env m sk = (m1, sk1, Some h) -> draw env m sk = draw env m1 sk1.
Proof.
  intros G. assert (Hm1 : sk_model m1 = Some h).
  { apply get_or_try_init_model in G. subst m1. reflexivity. }
  unfold draw at 1. rewrite G. rewrite (draw_realized env m1 sk1 h Hm1). reflexivity.
Qed.

Lemma keeps_draw_realized n env m sk h :
  sk_model m = Some h -> (n <= sk_next sk)%nat -> keeps n (Some h) sk (draw env m sk).2.
Proof.
  intros Hm Hn. rewrite (draw_realized env m sk h Hm). cbv zeta.
  set (repl := map_to_list (pending_material_replacements m)).
  assert (K2 : keeps n (Some h) sk (release_all (map snd repl) (apply_replacements h repl sk))).
  { eapply keeps_trans; [apply keeps_apply_replacements | apply keeps_release_all]. }
  destruct (space_client (with_replacements m ∅)) as [c |]; cbn [fst snd];
    (eapply keeps_trans; [| apply keeps_emit]); [| exact K2].
  eapply keeps_trans; [exact K2 |]. apply keeps_apply_parameters.
  destruct K2 as [N2 _]. lia.
Qed.

(** ** The parameter pass of a draw (C4, C9) *)

Section ParameterPass.

Lemma apply_to_material_applies env c v mat name sk :
  apply_to_material env c v mat name sk
  = if applies env c v then material_set mat name v sk else sk.
Proof.
  unfold apply_to_material, applies. destruct v as [t cs | r]; [reflexivity |].
  destruct (get_file env r _ _) as [p |]; [| reflexivity].
  destruct (texture_file_ok env p); reflexivity.
Qed.

(** The pass treats its entries one after the other. *)
Lemma apply_parameters_cons env c h e l sk :
  apply_parameters env c h (e :: l) sk
  = apply_parameters env c h l (apply_parameters env c h [e] sk).
Proof.
  destruct e as [[i name] v]. cbn [apply_parameters].
  destruct (model_get_material h i sk) as [sk1 [mat |]]; [| reflexivity].
  destruct (material_copy mat sk1) as [sk2 nm]. reflexivity.
Qed.

Lemma apply_parameters_app env c h l1 l2 : forall sk,
  apply_parameters env c h (l1 ++ l2) sk
  = apply_parameters env c h l2 (apply_parameters env c h l1 sk).
Proof.
  induction l1 as [| e l1 IH]; intros sk; [reflexivity |].
  change ((e :: l1) ++ l2) with (e :: (l1 ++ l2)).
  rewrite (apply_parameters_cons env c h e (l1 ++ l2)), (apply_parameters_cons env c h e l1).
  apply IH.
Qed.

(** One entry whose slot exists: the slot's material is copied into the
    next handle, the value is written on the copy, the copy fills the slot. *)
Lemma apply_parameters_entry_found env c h i name v sk slots mat :
  sk_models sk !! h = Some slots -> slots !! i = Some mat ->
  apply_parameters env c h [((i, name), v)] sk
  = mk_sk (S (sk_next sk)) (<[h := <[i := sk_next sk]> slots]> (sk_models sk))
      (<[sk_next sk := if applies env c v
                        then <[name := v]> (default ∅ (sk_materials sk !! mat))
                        else default ∅ (sk_materials sk !! mat)]> (sk_materials sk))
      (sk_refs sk)
      (sk_log sk ++ [EvModelGetMaterial h i; EvMaterialCopy mat (sk_next sk)] ++
       (if applies env c v then [EvMaterialSet (sk_next sk) name v] else []) ++
       [EvModelSetMaterial h i (sk_next sk)]).
Proof.
  intros Hs Hi. cbn [apply_parameters]. unfold model_get_material.
  rewrite Hs. simpl (Some slots ≫= _). rewrite Hi.
  unfold material_copy, alloc. rewrite apply_to_material_applies.
  assert (Hmo : forall mats, alter (fun slots0 => match slots0 !! i with
                                                  | Some _ => <[i := sk_next sk]> slots0
                                                  | None => slots0 end) h mats
                             = <[h := <[i := sk_next sk]> slots]> mats
                             \/ mats <> sk_models sk).
  { intros mats. destruct (decide (mats = sk_models sk)) as [-> | Hne]; [left | right; exact Hne].
    apply map_eq. intros k. destruct (decide (k = h)) as [-> | Hk].
    - rewrite lookup_alter_eq, lookup_insert_eq, Hs. simpl. rewrite Hi. reflexivity.
    - rewrite lookup_alter_ne, lookup_insert_ne by congruence. reflexivity. }
  destruct (Hmo (sk_models sk)) as [Hm | Hm]; [| congruence].
  destruct (applies env c v); unfold model_set_material, material_set, emit, mk_sk; cbn;
    rewrite Hm; rewrite ?alter_insert_eq; rewrite <- !app_assoc; reflexivity.
Qed.

(** One entry whose slot does not exist: only the lookup is made. *)
Lemma apply_parameters_entry_missing env c h i name v sk :
  (sk_models sk !! h ≫= fun slots => slots !! i) = None ->
  apply_parameters env c h [((i, name), v)] sk = emit (EvModelGetMaterial h i) sk.
Proof. intros H. cbn [apply_parameters]. unfold model_get_material. rewrite H. reflexivity. Qed.

Lemma apply_parameters_entry env c h i name v sk :
  (exists slots mat, sk_models sk !! h = Some slots /\ slots !! i = Some mat /\
     apply_parameters env c h [((i, name), v)] sk
     = mk_sk (S (sk_next sk)) (<[h := <[i := sk_next sk]> slots]> (sk_models sk))
         (<[sk_next sk := if applies env c v
                           then <[name := v]> (default ∅ (sk_materials sk !! mat))
                           else default ∅ (sk_materials sk !! mat)]> (sk_materials sk))
         (sk_refs sk)
         (sk_log sk ++ [EvModelGetMaterial h i; EvMaterialCopy mat (sk_next sk)] ++
          (if applies env c v then [EvMaterialSet (sk_next sk) name v] else []) ++
          [EvModelSetMaterial h i (sk_next sk)])) \/
  ((sk_models sk !! h ≫= fun slots => slots !! i) = None /\
   apply_parameters env c h [((i, name), v)] sk = emit (EvModelGetMaterial h i) sk).
Proof.
  destruct (sk_models sk !! h ≫= (fun slots => slots !! i)) as [mat |] eqn:Hb.
  - left. destruct (sk_models sk !! h) as [slots |] eqn:Hs; [| discriminate Hb].
    simpl in Hb. exists slots, mat. split; [reflexivity | split; [exact Hb |]].
    apply apply_parameters_entry_found; assumption.
  - right. split; [reflexivity | apply apply_parameters_entry_missing; exact Hb].
Qed.

Lemma apply_parameters_models_none env c h l : forall sk,
  sk_models sk !! h = None -> sk_models (apply_parameters env c h l sk) !! h = None.
Proof.
  induction l as [| [[i name] v] l IH]; intros sk Hn; [exact Hn |].
  rewrite apply_parameters_cons. apply IH.
  rewrite apply_parameters_entry_missing by (rewrite Hn; reflexivity). exact Hn.
Qed.

(** A slot present after the pass was present before it. *)
Lemma apply_parameters_slots_back env c h l : forall sk slots',
  sk_models (apply_parameters env c h l sk) !! h = Some slots' ->
  exists s, sk_models sk !! h = Some s /\ forall j, is_Some (s !! j) <-> is_Some (slots' !! j).
Proof.
  induction l as [| [[i name] v] l IH]; intros sk slots' H.
  - exists slots'. split; [exact H | reflexivity].
  - rewrite apply_parameters_cons in H. destruct (IH _ _ H) as [s1 [H1 E1]].
    destruct (apply_parameters_entry env c h i name v sk)
      as [[slots [mat [Hs [Hi Ee]]]] | [Hn Ee]]; rewrite Ee in H1; cbn [sk_models mk_sk emit] in H1.
    + rewrite lookup_insert_eq in H1. injection H1 as <-.
      exists slots. split; [exact Hs |]. intros j. rewrite <- E1.
      destruct (decide (j = i)) as [-> | Hne].
      * rewrite lookup_insert_eq, Hi. split; intros _; eexists; reflexivity.
      * rewrite lookup_insert_ne by congruence. reflexivity.
    + exists s1. split; [exact H1 | exact E1].
Qed.

(** The values written for one key, read off a trace. *)
Lemma key_write_at_not_set h i n e next :
  not_set e -> key_write_at h i n e next = [].
Proof. intros H. destruct e; simpl in *; first [reflexivity | contradiction]. Qed.

Lemma key_write_at_next h i n e e' :
  not_set_material e' -> key_write_at h i n e (Some e') = [].
Proof. intros H. destruct e, e'; simpl in *; first [reflexivity | contradiction]. Qed.

Lemma key_writes_not_set_app h i n A B :
  Forall not_set A -> key_writes h i n (A ++ B) = key_writes h i n B.
Proof.
  induction 1 as [| e A He _ IH]; [reflexivity |].
  cbn [app key_writes]. rewrite key_write_at_not_set by exact He. exact IH.
Qed.

Lemma key_writes_app h i n l1 l2 :
  (forall e, head l2 = Some e -> not_set_material e) ->
  key_writes h i n (l1 ++ l2) = key_writes h i n l1 ++ key_writes h i n l2.
Proof.
  intros H2. induction l1 as [| e l1 IH]; [reflexivity |].
  cbn [app key_writes]. rewrite IH, app_assoc.
  assert (E : key_write_at h i n e (head (l1 ++ l2)) = key_write_at h i n e (head l1)).
  { destruct l1 as [| e' l1]; [| reflexivity].
    simpl. destruct (head l2) as [e2 |] eqn:E2; [| destruct e; reflexivity].
    rewrite key_write_at_next by (apply H2; reflexivity). destruct e; reflexivity. }
  rewrite E. reflexivity.
Qed.

Lemma entry_key_writes h0 i0 n0 h i nm mat name v (b : bool) :
  key_writes h0 i0 n0
    ([EvModelGetMaterial h i; EvMaterialCopy mat nm] ++
     (if b then [EvMaterialSet nm name v] else []) ++ [EvModelSetMaterial h i nm])
  = if b && bool_decide (h = h0 /\ i = i0 /\ name = n0) then [v] else [].
Proof.
  destruct b; simpl; [| reflexivity].
  destruct (decide (h = h0 /\ i = i0 /\ name = n0)) as [Hy | Hn].
  - rewrite !bool_decide_true by tauto. reflexivity.
  - rewrite !bool_decide_false by tauto. reflexivity.
Qed.

(** A pass writes, for a key, at most the values its entries hold for it. *)
Lemma apply_parameters_key_writes env c h l : forall sk,
  exists new, sk_log (apply_parameters env c h l sk) = sk_log sk ++ new /\
    (forall e, head new = Some e -> not_set_material e) /\
    forall h0 i0 n0, key_writes h0 i0 n0 new `sublist_of`
      flat_map (fun kv => if bool_decide (h = h0 /\ kv.1 = (i0, n0)) then [kv.2] else []) l.
Proof.
  induction l as [| [[i name] v] l IH]; intros sk.
  - exists []. split; [symmetry; apply app_nil_r |]. split; [discriminate |].
    intros. apply sublist_nil_l.
  - rewrite apply_parameters_cons.
    destruct (apply_parameters_entry env c h i name v sk)
      as [[slots [mat [Hs [Hi Ee]]]] | [Hn Ee]]; rewrite Ee;
    match goal with |- context [apply_parameters env c h l ?s] =>
      destruct (IH s) as [rest [Hl [Hh Hk]]] end;
    rewrite Hl; cbn [sk_log mk_sk emit].
    + eexists. rewrite <- !app_assoc. split; [reflexivity |].
      split; [intros e He; injection He as <-; exact I |].
      intros h0 i0 n0.
      rewrite !app_assoc, key_writes_app by exact Hh.
      rewrite <- !app_assoc, entry_key_writes.
      cbn [flat_map fst snd]. apply sublist_app; [| exact (Hk h0 i0 n0)].
      destruct (applies env c v); simpl; [| apply sublist_nil_l].
      destruct (decide (h = h0 /\ i = i0 /\ name = n0)) as [[-> [-> ->]] | Hne].
      * rewrite !bool_decide_true by tauto. reflexivity.
      * rewrite bool_decide_false by tauto. apply sublist_nil_l.
    + eexists. rewrite <- !app_assoc. split; [reflexivity |].
      split; [intros e He; injection He as <-; exact I |].
      intros h0 i0 n0.
      rewrite (key_writes_not_set_app h0 i0 n0 [EvModelGetMaterial h i]) by (repeat constructor).
      cbn [flat_map fst snd]. apply sublist_inserts_l. exact (Hk h0 i0 n0).
Qed.

Lemma key_entries_none (h h0 : Handle) (k : Z * string) (l : list ((Z * string) * MaterialParameter)) :
  (forall e, e ∈ l -> e.1 <> k) ->
  flat_map (fun kv => if bool_decide (h = h0 /\ kv.1 = k) then [kv.2] else []) l = [].
Proof.
  induction l as [| e l IH]; intros Hl; [reflexivity |].
  simpl. rewrite bool_decide_false by (intros [_ E]; exact (Hl e (list_elem_of_here _ _) E)).
  apply IH. intros e' He'. apply Hl. right. exact He'.
Qed.

(** The entries of a map, around the one for [k]. *)
Lemma map_to_list_split (M : gmap (Z * string) MaterialParameter) k v :
  M !! k = Some v ->
  exists l1 l2, map_to_list M = l1 ++ (k, v) :: l2 /\ forall e, e ∈ l1 ++ l2 -> e.1 <> k.
Proof.
  intros Hk. apply elem_of_map_to_list in Hk.
  destruct (list_elem_of_split _ _ Hk) as [l1 [l2 E]].
  exists l1, l2. split; [exact E |].
  intros [k' v'] He Hk'. simpl in Hk'. subst k'.
  pose proof (NoDup_fst_map_to_list M) as Hnd. rewrite E, fmap_app in Hnd. simpl in Hnd.
  apply NoDup_app in Hnd as [_ [Hd Hnd2]]. apply NoDup_cons in Hnd2 as [Hn2 _].
  apply elem_of_app in He as [He | He].
  - apply (Hd k); [| apply list_elem_of_here].
    apply list_elem_of_fmap. exists (k, v'). split; [reflexivity | exact He].
  - apply Hn2. apply list_elem_of_fmap. exists (k, v'). split; [reflexivity | exact He].
Qed.

Lemma key_entries_single (h0 h : Handle) (M : gmap (Z * string) MaterialParameter) i0 n0 v :
  M !! (i0, n0) = Some v ->
  flat_map (fun kv => if bool_decide (h = h0 /\ kv.1 = (i0, n0)) then [kv.2] else [])
    (map_to_list M) = if bool_decide (h = h0) then [v] else [].
Proof.
  intros Hk. destruct (map_to_list_split M _ v Hk) as [l1 [l2 [E Hl]]]. rewrite E.
  rewrite flat_map_app. cbn [flat_map fst snd].
  rewrite !key_entries_none by (intros e He; apply Hl; apply elem_of_app; auto).
  destruct (decide (h = h0)) as [Hh | Hh].
  - rewrite !bool_decide_true by tauto. reflexivity.
  - rewrite !bool_decide_false by tauto. reflexivity.
Qed.

(** Construction calls are no [material_set_*] calls. *)
Lemma alloc_slots_log slots : forall acc sk sk1 mats,
  alloc_slots slots acc sk = (sk1, mats) -> sk_log sk1 = sk_log sk.
Proof.
  induction slots as [| i rest IH]; intros acc sk sk1 mats E; simpl in E.
  - injection E as <- _. reflexivity.
  - apply IH in E. exact E.
Qed.

Lemma get_or_try_init_extends env m sk m1 sk1 res :
  get_or_try_init env m sk = (m1, sk1, res) ->
  extends not_set sk sk1 /\ (sk_next sk <= sk_next sk1)%nat.
Proof.
  unfold get_or_try_init. destruct (sk_model m) as [h |].
  - intros E. injection E as _ <- _. split; [apply extends_refl | lia].
  - destruct (construct env m sk) as [skc rc] eqn:EC.
    assert (N : (sk_next sk <= sk_next skc)%nat).
    { destruct (keeps_construct 0 env m sk skc rc (Nat.le_0_l _) EC) as [[N _] _]. exact N. }
    assert (X : extends not_set sk skc).
    { revert EC. unfold construct. destruct (pending_model_path m) as [p |];
        [| intros E; injection E as <- _; apply extends_refl].
      unfold model_create_file. destruct (model_file env p) as [slots |];
        [| intros E; injection E as <- _; apply emit_extends; exact I].
      destruct (alloc_slots slots ∅ (emit (EvModelCreateFile p) sk)) as [skA mats] eqn:EA.
      apply alloc_slots_log in EA.
      unfold model_copy, alloc, own. intros E. injection E as <- _.
      exists [EvModelCreateFile p; EvModelCopy (sk_next skA) (S (sk_next skA))].
      cbn [sk_log mk_sk emit]. rewrite EA. cbn [sk_log mk_sk emit].
      rewrite <- app_assoc. split; [reflexivity | repeat constructor]. }
    destruct rc; intros E; injection E as _ <- _; split; assumption.
Qed.

(** The shape of any draw call: either it leaves the model unrealized and
    makes construction calls only, or it ends with one parameter pass (if
    the client is alive) and the draw call. *)
Lemma draw_shape env m sk :
  (sk_model (draw env m sk).1 = None /\ extends not_set sk (draw env m sk).2) \/
  (exists h sk3, sk_model (draw env m sk).1 = Some h /\ extends not_set sk sk3 /\
     (sk_next sk <= sk_next sk3)%nat /\
     (draw env m sk).2 = emit (EvModelDraw h)
       (match space_client m with
        | Some c => apply_parameters env c h (map_to_list (pending_material_parameters m)) sk3
        | None => sk3
        end)).
Proof.
  destruct (get_or_try_init env m sk) as [[m1 sk1] res] eqn:G.
  destruct (get_or_try_init_extends _ _ _ _ _ _ G) as [X1 N1].
  assert (Hm1 := get_or_try_init_model _ _ _ _ _ _ G).
  destruct res as [h |].
  - right. rewrite (draw_after_init env m sk m1 sk1 h G).
    assert (Hh : sk_model m1 = Some h) by (subst m1; reflexivity).
    destruct (draw_realized_extends env m1 sk1 h Hh) as [Hd _].
    set (repl := map_to_list (pending_material_replacements m1)).
    exists h, (release_all (map snd repl) (apply_replacements h repl sk1)).
    split; [exact Hd |]. split.
    + eapply extends_trans; [exact X1 |]. eapply extends_trans.
      * eapply extends_weaken; [| apply apply_replacements_extends].
        intros [] He; simpl in *; tauto.
      * eapply extends_weaken; [| apply release_all_extends].
        intros e [h' [-> _]]. exact I.
    + split.
      * destruct (keeps_apply_replacements 0 h repl sk1) as [NA _].
        destruct (keeps_release_all 0 (Some h) (map snd repl) (apply_replacements h repl sk1))
          as [NR _]. lia.
      * rewrite (draw_realized env m1 sk1 h Hh). cbv zeta. subst m1.
        change (space_client (with_replacements (with_sk_model m (Some h)) ∅))
          with (space_client m).
        change (pending_material_parameters (with_replacements (with_sk_model m (Some h)) ∅))
          with (pending_material_parameters m).
        fold repl. destruct (space_client m); reflexivity.
  - left. unfold draw. rewrite G. subst m1. split; [reflexivity | exact X1].
Qed.

(** A draw writes, for a key, at most the value staged for it. *)
Lemma draw_key_writes env m sk :
  exists new, sk_log (draw env m sk).2 = sk_log sk ++ new /\
    forall h0 i0 n0, key_writes h0 i0 n0 new `sublist_of`
      match pending_material_parameters m !! (i0, n0) with Some v => [v] | None => [] end.
Proof.
  destruct (draw_shape env m sk) as [[_ [new [Hl Hf]]] | [h [sk3 [_ [[A [HA FA]] [_ Ed]]]]]].
  - exists new. split; [exact Hl |]. intros h0 i0 n0.
    rewrite <- (app_nil_r new), key_writes_not_set_app by exact Hf. apply sublist_nil_l.
  - rewrite Ed. destruct (space_client m) as [c |].
    + destruct (apply_parameters_key_writes env c h (map_to_list (pending_material_parameters m)) sk3)
        as [P [HP [Hh Hk]]].
      exists (A ++ P ++ [EvModelDraw h]). cbn [sk_log mk_sk emit].
      rewrite HP, HA, <- !app_assoc. split; [reflexivity |].
      intros h0 i0 n0. rewrite key_writes_not_set_app by exact FA.
      rewrite key_writes_app by (intros e He; injection He as <-; exact I).
      rewrite app_nil_r. etransitivity; [exact (Hk h0 i0 n0) |].
      destruct (pending_material_parameters m !! (i0, n0)) as [v |] eqn:Hv.
      * rewrite (key_entries_single h0 h _ i0 n0 v Hv).
        destruct (bool_decide (h = h0)); [reflexivity | apply sublist_nil_l].
      * rewrite key_entries_none; [reflexivity |].
        intros [k' v'] He Ek. simpl in Ek. subst k'.
        apply elem_of_map_to_list in He. congruence.
    + exists (A ++ [EvModelDraw h]). cbn [sk_log mk_sk emit].
      rewrite HA, <- app_assoc. split; [reflexivity |].
      intros h0 i0 n0. rewrite key_writes_not_set_app by exact FA. apply sublist_nil_l.
Qed.

(** A draw that ends with a realized model [h] whose slot [k.1] exists,
    while a value is staged for [k] and the client is alive: the entry for
    [k] is applied to a state where the slot exists, and what follows holds
    no other entry for [k]. *)
Lemma draw_entry_split env m sk h c k v slots :
  space_client m = Some c -> pending_material_parameters m !! k = Some v ->
  sk_model (draw env m sk).1 = Some h -> sk_models (draw env m sk).2 !! h = Some slots ->
  is_Some (slots !! k.1) ->
  exists skA l2 sA mat0 A,
    (draw env m sk).2
      = emit (EvModelDraw h) (apply_parameters env c h l2 (apply_parameters env c h [(k, v)] skA)) /\
    (forall e, e ∈ l2 -> e.1 <> k) /\
    sk_models skA !! h = Some sA /\ sA !! k.1 = Some mat0 /\
    (sk_next sk <= sk_next skA)%nat /\
    sk_log skA = sk_log sk ++ A /\ (forall h0, key_writes h0 k.1 k.2 A = []).
Proof.
  intros Hc Hk Hh Hs Hi.
  destruct (draw_shape env m sk) as [[Hn _] | [h' [sk3 [Hh' [[A0 [HA0 FA0]] [N3 Ed]]]]]];
    [congruence |].
  rewrite Hh in Hh'. injection Hh' as <-.
  rewrite Hc in Ed.
  destruct (map_to_list_split _ k v Hk) as [l1 [l2 [El Hl]]].
  rewrite El, apply_parameters_app, apply_parameters_cons in Ed.
  rewrite Ed in Hs. change (sk_models (emit ?e ?s)) with (sk_models s) in Hs.
  destruct (apply_parameters_slots_back env c h l2 _ _ Hs) as [sB [HB EB]].
  destruct (apply_parameters_slots_back env c h [(k, v)] _ _ HB) as [sA [HA EA]].
  assert (Hmat : is_Some (sA !! k.1)) by (apply EA, EB; exact Hi).
  destruct Hmat as [mat0 Hmat].
  destruct (keeps_apply_parameters 0 env c h l1 sk3 (Nat.le_0_l _)) as [NA _].
  destruct (apply_parameters_key_writes env c h l1 sk3) as [P1 [HP1 [_ Hk1]]].
  exists (apply_parameters env c h l1 sk3), l2, sA, mat0, (A0 ++ P1).
  split; [exact Ed |]. split; [intros e He; apply Hl, elem_of_app; right; exact He |].
  split; [exact HA |]. split; [exact Hmat |]. split; [lia |].
  split; [rewrite HP1, HA0, <- app_assoc; reflexivity |].
  intros h0. rewrite key_writes_not_set_app by exact FA0.
  apply sublist_nil_r. destruct k as [i0 n0].
  rewrite <- (key_entries_none h h0 (i0, n0) l1) by (intros e He; apply Hl, elem_of_app; left; exact He).
  exact (Hk1 h0 i0 n0).
Qed.

(** The material a pass left in slot [i] of [h], fresh since [n0] and
    carrying [v] as parameter [name], keeps both through entries for other
    keys. *)
Lemma apply_parameters_keeps_written env c h i name v n0 l : forall sk,
  (forall e, e ∈ l -> e.1 <> (i, name)) ->
  (exists (slots : gmap Z Handle) (mat : Handle) (ps : gmap string MaterialParameter), sk_models sk !! h = Some slots /\ slots !! i = Some mat /\
     sk_materials sk !! mat = Some ps /\ ps !! name = Some v /\
     (n0 <= mat)%nat /\ (mat < sk_next sk)%nat) ->
  exists (slots : gmap Z Handle) (mat : Handle) (ps : gmap string MaterialParameter), sk_models (apply_parameters env c h l sk) !! h = Some slots /\
    slots !! i = Some mat /\ sk_materials (apply_parameters env c h l sk) !! mat = Some ps /\
    ps !! name = Some v /\ (n0 <= mat)%nat /\ (mat < sk_next (apply_parameters env c h l sk))%nat.
Proof.
  induction l as [| [[j n'] v'] l IH]; intros sk Hl Hinv; [exact Hinv |].
  rewrite apply_parameters_cons. apply IH; [intros e He; apply Hl; right; exact He |].
  destruct Hinv as (slots & mat & ps & Hs & Hi & Hm & Hp & H0 & H1).
  destruct (apply_parameters_entry env c h j n' v' sk)
    as [[slots' [mat' [Hs' [Hj Ee]]]] | [_ Ee]]; rewrite Ee; cbn [sk_models sk_materials sk_next mk_sk emit].
  - rewrite Hs in Hs'. injection Hs' as Es. subst slots'.
    destruct (decide (j = i)) as [-> | Hji].
    + rewrite Hi in Hj. injection Hj as <-. rewrite Hm. cbn [default].
      assert (Hn' : n' <> name).
      { intros ->. apply (Hl ((i, name), v') (list_elem_of_here _ _)). reflexivity. }
      exists (<[i := sk_next sk]> slots), (sk_next sk),
        (if applies env c v' then <[n' := v']> ps else ps).
      rewrite !lookup_insert_eq. split; [reflexivity |]. split; [reflexivity |].
      split; [reflexivity |].
      split; [destruct (applies env c v'); [rewrite lookup_insert_ne by congruence |]; exact Hp |].
      lia.
    + exists (<[j := sk_next sk]> slots), mat, ps.
      rewrite lookup_insert_eq. split; [reflexivity |].
      rewrite lookup_insert_ne by congruence. split; [exact Hi |].
      rewrite lookup_insert_ne by lia. split; [exact Hm |]. split; [exact Hp |]. lia.
  - exists slots, mat, ps. repeat split; assumption.
Qed.

End ParameterPass.

(** C9: a draw call never mutates a material in place. It changes no
    material that existed before it (every handle below the allocator's next
    handle) and no slot of another graphics model; a staged value that
    applies ends up, after the draw, on a material created by the draw and
    sitting in the slot; and each entry of the parameter pass copies the
    slot's current material to the next handle, writes the value on the
    copy only, and puts the copy into the slot. *)
Theorem draw_copy_on_write env (m : Model) (sk : Sk) :
  (forall k, (k < sk_next sk)%nat ->
     sk_materials (draw env m sk).2 !! k = sk_materials sk !! k /\
     (sk_model m <> Some k -> sk_models (draw env m sk).2 !! k = sk_models sk !! k)) /\
  (forall h c i name v slots,
     space_client m = Some c -> pending_material_parameters m !! (i, name) = Some v ->
     applies env c v = true ->
     sk_model (draw env m sk).1 = Some h -> sk_models (draw env m sk).2 !! h = Some slots ->
     is_Some (slots !! i) ->
     exists mat ps, slots !! i = Some mat /\ (sk_next sk <= mat)%nat /\
       sk_materials (draw env m sk).2 !! mat = Some ps /\ ps !! name = Some v) /\
  (forall c h i name v l sk0 slots mat ps,
     sk_models sk0 !! h = Some slots -> slots !! i = Some mat ->
     sk_materials sk0 !! mat = Some ps ->
     apply_parameters env c h (((i, name), v) :: l) sk0
       = apply_parameters env c h l (apply_parameters env c h [((i, name), v)] sk0) /\
     sk_models (apply_parameters env c h [((i, name), v)] sk0)
       = <[h := <[i := sk_next sk0]> slots]> (sk_models sk0) /\
     sk_materials (apply_parameters env c h [((i, name), v)] sk0)
       = <[sk_next sk0 := if applies env c v then <[name := v]> ps else ps]>
           (sk_materials sk0) /\
     (sk_next sk0 < sk_next (apply_parameters env c h [((i, name), v)] sk0))%nat).
Proof.
  split; [| split].
  - intros k Hk.
    assert (Hn : (sk_next sk <= sk_next sk)%nat) by lia.
    assert (K : keeps (sk_next sk) (sk_model m) sk (draw env m sk).2).
    { destruct (sk_model m) as [h |] eqn:Hm.
      - apply keeps_draw_realized; assumption.
      - destruct (get_or_try_init env m sk) as [[m1 sk1] res] eqn:G.
        assert (G' := G). unfold get_or_try_init in G'. rewrite Hm in G'.
        destruct (construct env m sk) as [skc resc] eqn:EC.
        destruct (keeps_construct (sk_next sk) env m sk skc resc Hn EC) as [KC HC].
        destruct resc as [hc |]; injection G' as <- <- <-.
        + rewrite (draw_after_init env m sk _ _ hc G).
          eapply keeps_trans; [exact KC |].
          eapply keeps_fresh; [apply HC; reflexivity |].
          apply keeps_draw_realized; [reflexivity |]. destruct KC as [NC _]. lia.
        + unfold draw. rewrite G. exact KC. }
    destruct K as [_ K]. destruct (K k Hk) as [A B].
    split; [exact A | intros Hne; apply B; intros E; apply Hne; symmetry; exact E].
  - intros h c i name v slots Hc Hk Ha Hh Hs Hi.
    destruct (draw_entry_split env m sk h c (i, name) v slots Hc Hk Hh Hs Hi)
      as (skA & l2 & sA & mat0 & A & Ed & Hl2 & HA & Hmat & NA & _).
    cbn [fst] in Hmat.
    rewrite Ed in Hs |- *.
    change (sk_models (emit ?e ?s)) with (sk_models s) in Hs.
    change (sk_materials (emit ?e ?s)) with (sk_materials s).
    destruct (apply_parameters_keeps_written env c h i name v (sk_next sk) l2
                (apply_parameters env c h [((i, name), v)] skA) Hl2)
      as (slots' & mat & ps & Hs' & Hi' & Hm' & Hp' & H0 & _).
    { rewrite (apply_parameters_entry_found env c h i name v skA sA mat0 HA Hmat), Ha.
      cbn [sk_models sk_materials sk_next mk_sk].
      exists (<[i := sk_next skA]> sA), (sk_next skA),
        (<[name := v]> (default ∅ (sk_materials skA !! mat0))).
      rewrite !lookup_insert_eq. repeat split; lia. }
    rewrite Hs in Hs'. injection Hs' as Es. subst slots'.
    exists mat, ps. repeat split; assumption.
  - intros c h i name v l sk0 slots mat ps Hs Hi Hm.
    split; [apply apply_parameters_cons |].
    rewrite (apply_parameters_entry_found env c h i name v sk0 slots mat Hs Hi), Hm.
    cbn [sk_models sk_materials sk_next mk_sk default].
    split; [reflexivity |]. split; [reflexivity | lia].
Qed.

(** The spec's scenario: a parameter mutation on model 0's slot 0, whose
    material 2 is shared with model 5: material 2 and model 5 are
    unaffected, model 0's slot 0 now holds the fresh copy 10 carrying the
    new value, and the pass step copies material 2 with its [tint]. *)
Lemma draw_copy_on_write_witness :
  let m := model_ex (Some client_ex) {[(0, "color"%string) := MPValue 0 [9]]} in
  sk_materials (draw env_ex m sk_shared).2 !! 2%nat = sk_materials sk_shared !! 2%nat /\
  sk_models (draw env_ex m sk_shared).2 !! 5%nat = sk_models sk_shared !! 5%nat /\
  (exists mat ps, ({[0 := 10%nat]} : gmap Z Handle) !! 0 = Some mat /\
     (sk_next sk_shared <= mat)%nat /\
     sk_materials (draw env_ex m sk_shared).2 !! mat = Some ps /\
     ps !! "color"%string = Some (MPValue 0 [9])) /\
  sk_materials (apply_parameters env_ex client_ex 0%nat [((0, "color"%string), MPValue 0 [9])]
                  sk_shared)
    = <[10%nat := <["color"%string := MPValue 0 [9]]> {["tint"%string := MPValue 0 [0]]}]>
        (sk_materials sk_shared).
Proof.
  cbv zeta.
  destruct (draw_copy_on_write env_ex
              (model_ex (Some client_ex) {[(0, "color"%string) := MPValue 0 [9]]}) sk_shared)
    as [Ha [Hb Hc]].
  split; [destruct (Ha 2%nat) as [A _]; [simpl; lia | exact A] |].
  split; [destruct (Ha 5%nat) as [_ B]; [simpl; lia | apply B; discriminate] |].
  split.
  - apply (Hb 0%nat client_ex 0 "color"%string (MPValue 0 [9]) {[0 := 10%nat]});
      [reflexivity | vm_compute; reflexivity | reflexivity | vm_compute; reflexivity
      | vm_compute; reflexivity | exists 10%nat; vm_compute; reflexivity].
  - destruct (Hc client_ex 0%nat 0 "color"%string (MPValue 0 [9]) [] sk_shared
                {[0 := 2%nat]} 2%nat {["tint"%string := MPValue 0 [0]]}) as (_ & _ & Hm & _);
      [vm_compute; reflexivity | vm_compute; reflexivity | vm_compute; reflexivity |].
    exact Hm.
Defined.

(** C4: successive [set_material_parameter] calls for one (slot, name) key
    keep only the last value in the staging map, whatever else is staged.
    The next draw call, on a realized model or on one it builds, writes at
    most one value for that key, the last one staged; and it does write it
    when the client is alive, the model ends up realized with that slot,
    and the value applies (a plain value, or a texture whose file resolves
    and loads). *)
Theorem parameters_last_write_wins env (m : Model) (sk : Sk) (idx : Z) (name : string)
    (vs : list MaterialParameter) (v : MaterialParameter) :
  pending_material_parameters (stage_parameters idx name (vs ++ [v]) m)
    = <[(as_i32 idx, name) := v]> (pending_material_parameters m) /\
  exists new,
    sk_log (draw env (stage_parameters idx name (vs ++ [v]) m) sk).2 = sk_log sk ++ new /\
    (forall h, key_writes h (as_i32 idx) name new = [] \/
               key_writes h (as_i32 idx) name new = [v]) /\
    (forall h c slots, space_client m = Some c ->
       sk_model (draw env (stage_parameters idx name (vs ++ [v]) m) sk).1 = Some h ->
       sk_models (draw env (stage_parameters idx name (vs ++ [v]) m) sk).2 !! h = Some slots ->
       is_Some (slots !! as_i32 idx) -> applies env c v = true ->
       key_writes h (as_i32 idx) name new = [v]).
Proof.
  split; [apply stage_parameters_params |].
  set (ms := stage_parameters idx name (vs ++ [v]) m).
  destruct (stage_parameters_fields idx name (vs ++ [v]) m) as [_ [Hc' _]]. fold ms in Hc'.
  assert (Hps : pending_material_parameters ms !! (as_i32 idx, name) = Some v).
  { unfold ms. rewrite stage_parameters_params. apply lookup_insert_eq. }
  destruct (draw_key_writes env ms sk) as [new [Hl Hk]].
  exists new. split; [exact Hl |]. split.
  - intros h. specialize (Hk h (as_i32 idx) name). rewrite Hps in Hk.
    apply sublist_cons_r in Hk as [Hk | [l' [Hk Hk']]].
    + left. apply sublist_nil_r. exact Hk.
    + right. apply sublist_nil_r in Hk'. subst l'. exact Hk.
  - intros h c slots Hc Hh Hs Hi Ha. rewrite <- Hc' in Hc.
    destruct (draw_entry_split env ms sk h c (as_i32 idx, name) v slots Hc Hps Hh Hs Hi)
      as (skA & l2 & sA & mat0 & A & Ed & Hl2 & HA & Hmat & _ & HlA & HkA).
    cbn [fst snd] in Hmat, HkA.
    set (skB := apply_parameters env c h [((as_i32 idx, name), v)] skA) in Ed.
    set (E := [EvModelGetMaterial h (as_i32 idx); EvMaterialCopy mat0 (sk_next skA)] ++
              (if applies env c v then [EvMaterialSet (sk_next skA) name v] else []) ++
              [EvModelSetMaterial h (as_i32 idx) (sk_next skA)]).
    assert (HB : sk_log skB = sk_log skA ++ E).
    { unfold skB. rewrite (apply_parameters_entry_found env c h _ name v skA sA mat0 HA Hmat).
      reflexivity. }
    destruct (apply_parameters_key_writes env c h l2 skB) as [P2 [HP2 [Hh2 Hk2]]].
    assert (Hnew : new = A ++ E ++ P2 ++ [EvModelDraw h]).
    { rewrite Ed in Hl. change (sk_log (emit ?e ?s)) with (sk_log s ++ [e]) in Hl.
      rewrite HP2, HB, HlA, <- !app_assoc in Hl. apply app_inv_head in Hl.
      symmetry. exact Hl. }
    subst new.
    rewrite key_writes_app by (intros e He; injection He as <-; exact I).
    rewrite HkA, app_nil_l.
    rewrite key_writes_app.
    2: { destruct P2 as [| e0 P2]; intros e He; injection He as <-;
         [exact I | apply Hh2; reflexivity]. }
    unfold E. rewrite entry_key_writes, Ha, bool_decide_true by tauto. cbn [andb].
    rewrite key_writes_app by (intros e He; injection He as <-; exact I).
    assert (HP : key_writes h (as_i32 idx) name P2 = []).
    { apply sublist_nil_r. rewrite <- (key_entries_none h h (as_i32 idx, name) l2 Hl2).
      exact (Hk2 h (as_i32 idx) name). }
    rewrite HP. reflexivity.
Qed.

(** The first draw of a model that builds it: two values staged for slot 0's
    [color], another key staged for slot 1; the built model 13 gets only the
    last [color] value. *)
Lemma parameters_last_write_wins_witness :
  let m := with_sk_model (model_ex (Some client_ex) {[(1, "tint"%string) := MPValue 0 [5]]})
             None in
  exists new,
    sk_log (draw env_ex (stage_parameters 0 "color" [MPValue 0 [1]; MPValue 0 [2]] m) sk_ex).2
      = sk_log sk_ex ++ new /\
    key_writes 13%nat 0 "color" new = [MPValue 0 [2]].
Proof.
  cbv zeta.
  destruct (parameters_last_write_wins env_ex
              (with_sk_model (model_ex (Some client_ex) {[(1, "tint"%string) := MPValue 0 [5]]})
                 None) sk_ex 0 "color" [MPValue 0 [1]] (MPValue 0 [2]))
    as [_ [new [Hl [_ Hb]]]].
  exists new. split; [exact Hl |].
  apply (Hb 13%nat client_ex {[0 := 14%nat; 1 := 15%nat]});
    [reflexivity | vm_compute; reflexivity | vm_compute; reflexivity
    | exists 14%nat; vm_compute; reflexivity | reflexivity].
Defined.

(** ** Deferred destruction (C6) *)

Section Destruction.

Lemma release_refs_ne x h sk : x <> h -> sk_refs (release x sk) !! h = sk_refs sk !! h.
Proof.
  intros Hne. unfold release.
  destruct (sk_refs sk !! x) as [[| [| k]] |]; simpl;
    rewrite ?lookup_delete_ne, ?lookup_insert_ne by exact Hne; reflexivity.
Qed.

Lemma release_all_refs_ne l h : forall sk,
  h ∉ l -> sk_refs (release_all l sk) !! h = sk_refs sk !! h.
Proof.
  induction l as [| x l IH]; intros sk Hn; simpl; [reflexivity |].
  rewrite IH by (intros Hin; apply Hn; right; exact Hin).
  apply release_refs_ne. intros ->. apply Hn. left.
Qed.

Lemma destroy_count_app h l1 l2 :
  destroy_count h (l1 ++ l2) = (destroy_count h l1 + destroy_count h l2)%nat.
Proof. unfold destroy_count. rewrite filter_app, length_app. reflexivity. Qed.

Lemma destroy_count_other h l :
  Forall (fun e => e <> EvDestroy h) l -> destroy_count h l = 0%nat.
Proof.
  induction 1 as [| e l He _ IH]; [reflexivity |].
  unfold destroy_count in *. rewrite filter_cons, decide_False by exact He. exact IH.
Qed.

Lemma teardown_all_gone h q : forall sk,
  sk_refs sk !! h = None ->
  exists new, sk_log (teardown_all q sk) = sk_log sk ++ new /\ destroy_count h new = 0%nat.
Proof.
  induction q as [| e q IH]; intros sk Hn; simpl.
  - exists []. rewrite app_nil_r. auto.
  - assert (Hstep : sk_refs (teardown e sk) !! h = None /\
                    extends (fun ev => ev <> EvDestroy h) sk (teardown e sk)).
    { destruct e as [x | t]; simpl; [| split; [exact Hn | apply extends_refl]].
      destruct (decide (x = h)) as [-> | Hne].
      - unfold release. rewrite Hn. split; [exact Hn | apply extends_refl].
      - split; [rewrite release_refs_ne; [exact Hn | exact Hne] |].
        eapply extends_weaken; [| apply release_extends].
        intros ev -> E. injection E. exact Hne. }
    destruct Hstep as [Hn' [n1 [H1 F1]]].
    destruct (IH _ Hn') as [n2 [H2 C2]].
    exists (n1 ++ n2). rewrite H2, H1, app_assoc. split; [reflexivity |].
    rewrite destroy_count_app, destroy_count_other by exact F1. exact C2.
Qed.

Lemma teardown_all_once h q : forall sk,
  sk_refs sk !! h = Some 1%nat -> QHandle h ∈ q ->
  exists new, sk_log (teardown_all q sk) = sk_log sk ++ new /\ destroy_count h new = 1%nat.
Proof.
  induction q as [| e q IH]; intros sk Hr Hin; [apply elem_of_nil in Hin; contradiction |].
  simpl. destruct (decide (e = QHandle h)) as [-> | Hne].
  - simpl.
    destruct (teardown_all_gone h q (release h sk)) as [n2 [H2 C2]].
    { unfold release. rewrite Hr. simpl. apply lookup_delete_eq. }
    exists (EvDestroy h :: n2). rewrite H2. unfold release. rewrite Hr. simpl.
    rewrite <- app_assoc. split; [reflexivity |].
    unfold destroy_count in *. rewrite filter_cons, decide_True by reflexivity.
    simpl. rewrite C2. reflexivity.
  - apply elem_of_cons in Hin. destruct Hin as [Hin | Hin]; [congruence |].
    assert (Hstep : sk_refs (teardown e sk) !! h = Some 1%nat /\
                    extends (fun ev => ev <> EvDestroy h) sk (teardown e sk)).
    { destruct e as [x | t]; simpl; [| split; [exact Hr | apply extends_refl]].
      assert (Hx : x <> h) by congruence.
      split; [rewrite release_refs_ne; [exact Hr | exact Hx] |].
      eapply extends_weaken; [| apply release_extends].
      intros ev -> E. injection E. exact Hx. }
    destruct Hstep as [Hr' [n1 [H1 F1]]].
    destruct (IH _ Hr' Hin) as [n2 [H2 C2]].
    exists (n1 ++ n2). rewrite H2, H1, app_assoc. split; [reflexivity |].
    rewrite destroy_count_app, destroy_count_other by exact F1. exact C2.
Qed.

End Destruction.

(** C6 (as corrected): dropping a [Model] appends its graphics model to the
    destroy queue without destroying it; when the model was its only owner
    the queue entry is then the only owner, and the next drain destroys it
    exactly once. Dropping a [CoreSurface] appends its texture and its
    material handle to the queue without destroying anything; the material
    handle is an [Arc] that models may share, so the queue holds one of its
    owners only. *)
Theorem drop_defers_destruction (m : Model) (q : list QueueEntry) (sk : Sk) (h : Handle) :
  sk_model m = Some h -> sk_refs sk !! h = Some 1%nat ->
  h ∉ map snd (map_to_list (pending_material_replacements m)) ->
  (model_drop m q sk).1 = q ++ [QHandle h] /\
  sk_refs (model_drop m q sk).2 !! h = Some 1%nat /\
  (exists new, sk_log (model_drop m q sk).2 = sk_log sk ++ new /\ destroy_count h new = 0%nat) /\
  (drain_destroy_queue (model_drop m q sk).1 (model_drop m q sk).2).1 = [] /\
  (exists new, sk_log (drain_destroy_queue (model_drop m q sk).1 (model_drop m q sk).2).2
               = sk_log (model_drop m q sk).2 ++ new /\ destroy_count h new = 1%nat) /\
  (forall (s : CoreSurface) (q' : list QueueEntry), exists extra,
     surface_drop s q' = q' ++ extra /\
     (forall t, sk_tex s = Some t -> QHandle t ∈ extra) /\
     (forall mt, sk_mat s = Some mt -> QHandle mt ∈ extra)).
Proof.
  intros Hm Hr Hnot. unfold model_drop. rewrite Hm. cbn [fst snd].
  set (l := map snd (map_to_list (pending_material_replacements m))).
  assert (Hr1 : sk_refs (release_all l sk) !! h = Some 1%nat)
    by (rewrite release_all_refs_ne by exact Hnot; exact Hr).
  split; [reflexivity |]. split; [exact Hr1 |]. split.
  - destruct (release_all_extends l sk) as [new [Hl F]].
    exists new. split; [exact Hl |]. apply destroy_count_other.
    eapply Forall_impl; [exact F |]. intros e [x [-> Hx]] E.
    injection E as ->. contradiction.
  - split; [reflexivity |]. split.
    + apply teardown_all_once; [exact Hr1 |]. unfold destroy_queue_add.
      apply elem_of_app. right. left.
    + intros s q'. unfold surface_drop, destroy_queue_add.
      destruct (sk_tex s) as [t |], (sk_mat s) as [mt |];
        destruct (mapped_data s) as [[[w |] sz] |];
        eexists; rewrite <- ?app_assoc;
        (split; [first [reflexivity | symmetry; apply app_nil_r] |]);
        split; intros ? E; first [discriminate E | injection E as <-; set_solver].
Qed.

Lemma drop_defers_destruction_witness :
  (model_drop (model_ex None ∅) [] sk_ex).1 = [QHandle 0%nat] /\
  exists new, sk_log (drain_destroy_queue (model_drop (model_ex None ∅) [] sk_ex).1
                        (model_drop (model_ex None ∅) [] sk_ex).2).2
              = sk_log (model_drop (model_ex None ∅) [] sk_ex).2 ++ new /\
              destroy_count 0%nat new = 1%nat.
Proof.
  destruct (drop_defers_destruction (model_ex None ∅) [] sk_ex 0%nat)
    as [Hq [_ [_ [_ [Hd _]]]]].
  - reflexivity.
  - reflexivity.
  - vm_compute. intros Hin. apply elem_of_nil in Hin. exact Hin.
  - split; [exact Hq | exact Hd].
Defined.

(** C6 counterexample: a surface applies its material (11) to model 0 and
    is dropped before the model's next draw: the queue receives the
    material, but the model's pending replacement still owns it, and the
    drain does not destroy it. *)
Lemma surface_material_not_solely_owned :
  match process frame_ex surface_ex world_ex with
  | Some (s1, w1) =>
      let q := surface_drop s1 (w_queue w1) in
      sk_mat s1 = Some 11%nat /\ q = [QHandle 10%nat; QHandle 11%nat; QGlesTexture 7%nat] /\
      sk_refs (w_sk w1) !! 11%nat = Some 2%nat /\
      bool_decide (EvDestroy 11%nat ∈ sk_log (drain_destroy_queue q (w_sk w1)).2) = false /\
      sk_refs (drain_destroy_queue q (w_sk w1)).2 !! 11%nat = Some 1%nat
  | None => False
  end.
Proof. vm_compute. repeat split. Qed.

(** ** Surface material applications (C10) *)

Section SurfaceMaterials.

Variables (mat : Handle) (id : nat) (idx : Z).

Lemma insert_replacement_repl i mt m sk :
  pending_material_replacements (insert_replacement i mt m sk).1
    = <[i := mt]> (pending_material_replacements m).
Proof. reflexivity. Qed.

(** One step of the loop, on a present model. *)
Lemma apply_surface_materials_cons model i l w m :
  w_models w !! model = Some m ->
  apply_surface_materials mat ((model, i) :: l) w
    = apply_surface_materials mat l
        (mk_world (insert_replacement i mat m (w_sk w)).2
                  (<[model := (insert_replacement i mat m (w_sk w)).1]> (w_models w))
                  (w_next_model w) (w_queue w)).
Proof.
  intros E. cbn [apply_surface_materials]. rewrite E.
  destruct (insert_replacement i mat m (w_sk w)). reflexivity.
Qed.

Lemma apply_surface_materials_keeps l : forall w m,
  w_models w !! id = Some m -> pending_material_replacements m !! idx = Some mat ->
  exists m', w_models (apply_surface_materials mat l w) !! id = Some m' /\
             pending_material_replacements m' !! idx = Some mat.
Proof.
  induction l as [| [model i] l IH]; intros w m Hw Hr; [exists m; auto |].
  destruct (w_models w !! model) as [m0 |] eqn:E.
  - rewrite (apply_surface_materials_cons model i l w m0 E).
    destruct (decide (model = id)) as [-> | Hne].
    + apply (IH _ (insert_replacement i mat m0 (w_sk w)).1).
      * simpl. apply lookup_insert_eq.
      * rewrite insert_replacement_repl.
        rewrite Hw in E. injection E as ->.
        destruct (decide (i = idx)) as [-> | Hi].
        -- apply lookup_insert_eq.
        -- rewrite lookup_insert_ne by exact Hi. exact Hr.
    + apply (IH _ m); [simpl; rewrite lookup_insert_ne by exact Hne; exact Hw | exact Hr].
  - cbn [apply_surface_materials]. rewrite E. apply (IH _ m Hw Hr).
Qed.

Lemma apply_surface_materials_applies l : forall w m,
  (id, idx) ∈ l -> w_models w !! id = Some m ->
  exists m', w_models (apply_surface_materials mat l w) !! id = Some m' /\
             pending_material_replacements m' !! idx = Some mat.
Proof.
  induction l as [| [model i] l IH]; intros w m Hin Hw;
    [apply elem_of_nil in Hin; contradiction |].
  apply elem_of_cons in Hin.
  destruct (w_models w !! model) as [m0 |] eqn:E.
  - rewrite (apply_surface_materials_cons model i l w m0 E).
    destruct Hin as [Heq | Hin].
    + injection Heq as E1 E2. subst model i.
      apply (apply_surface_materials_keeps l _ (insert_replacement idx mat m0 (w_sk w)).1).
      * simpl. apply lookup_insert_eq.
      * rewrite insert_replacement_repl. apply lookup_insert_eq.
    + destruct (decide (model = id)) as [-> | Hne].
      * apply (IH _ (insert_replacement i mat m0 (w_sk w)).1 Hin).
        simpl. apply lookup_insert_eq.
      * apply (IH _ m Hin). simpl. rewrite lookup_insert_ne by exact Hne. exact Hw.
  - destruct Hin as [Heq | Hin]; [injection Heq as E1 E2; subst model; congruence |].
    cbn [apply_surface_materials]. rewrite E. apply (IH _ m Hin Hw).
Qed.

End SurfaceMaterials.

Lemma process_unmapped fr s w :
  negb (surface_alive s && import_ok fr && buffer_mapped fr) = true ->
  exists s' w', process fr s w = Some (s', w') /\ w_models w' = w_models w /\
    pending_material_applications s' = pending_material_applications s /\
    surface_alive s' = surface_alive s.
Proof.
  intros H. unfold process.
  destruct (surface_alive s) eqn:Ea; [| eexists _, _; split; [reflexivity | auto]].
  destruct (sk_tex s) as [t |], (sk_mat s) as [mt |];
    destruct (import_ok fr), (buffer_mapped fr); simpl in H; try discriminate H;
    simpl; eexists _, _; (split; [reflexivity |]); auto.
Qed.

(** C10: [apply_material] only stages a (model, slot) pair on the surface.
    The surface's material reaches a model's replacement map only through
    a [process] call that finds the surface alive, the import successful
    and the buffer mapped; there it is inserted under the staged slot of
    each staged model still present, overwriting whatever that slot held,
    and the staged list is emptied. A [process] call that finds any of the
    three conditions false changes no model and keeps the staged list, so
    when the surface is never mapped the staged pairs never reach a model. *)
Theorem surface_materials_applied_when_mapped (s : CoreSurface) (w : World) :
  (forall model i, apply_material model i s
     = mk_surface (surface_alive s) (mapped_data s) (sk_tex s) (sk_mat s)
                  (material_offset s) (pending_material_applications s ++ [(model, i)])) /\
  (forall fr, negb (surface_alive s && import_ok fr && buffer_mapped fr) = true ->
     exists s' w', process fr s w = Some (s', w') /\ w_models w' = w_models w /\
       pending_material_applications s' = pending_material_applications s) /\
  (forall frs, Forall (fun fr => buffer_mapped fr = false) frs ->
     exists s' w', process_frames frs s w = Some (s', w') /\ w_models w' = w_models w /\
       pending_material_applications s' = pending_material_applications s) /\
  (forall fr tid tw th sz,
     surface_alive s = true -> import_ok fr = true -> buffer_mapped fr = true ->
     smithay_tex fr = Some (tid, tw, th) -> surface_size fr = Some sz ->
     exists s' w' mat, process fr s w = Some (s', w') /\ sk_mat s' = Some mat /\
       pending_material_applications s' = [] /\
       forall id idx m, (id, idx) ∈ pending_material_applications s ->
         w_models w !! id = Some m ->
         exists m', w_models w' !! id = Some m' /\
                    pending_material_replacements m' !! idx = Some mat).
Proof.
  split; [reflexivity |]. split.
  { intros fr H. destruct (process_unmapped fr s w H) as (s' & w' & ? & ? & ? & _).
    eexists _, _; eauto. }
  split.
  - intros frs HF. revert s w. induction HF as [| fr frs Hb _ IH]; intros s w.
    + exists s, w. auto.
    + cbn [process_frames].
      destruct (process_unmapped fr s w) as (s1 & w1 & Hp & Hw & Hq & _).
      { rewrite Hb, andb_false_r. reflexivity. }
      rewrite Hp. destruct (IH s1 w1) as (s2 & w2 & Hp2 & Hw2 & Hq2).
      exists s2, w2. rewrite Hw2, Hq2. auto.
  - intros fr tid tw th sz Ha Hi Hb Ht Hs. unfold process.
    rewrite Ha, Hi, Hb, Ht. cbn [negb].
    destruct (delta (material_offset s)) as [off' changed].
    destruct (sk_tex s) as [t |], (sk_mat s) as [mt |]; cbn zeta; simpl; rewrite Hs;
      (eexists _, _, _; split; [reflexivity |]); simpl; (split; [reflexivity |]);
      (split; [reflexivity |]); intros id idx m Hin Hm;
      (eapply apply_surface_materials_applies; [exact Hin |]); exact Hm.
Qed.

Lemma surface_materials_applied_when_mapped_witness :
  exists s' w' mat, process frame_ex surface_ex world_ex = Some (s', w') /\
    sk_mat s' = Some mat /\ pending_material_applications s' = [] /\
    exists m', w_models w' !! 0%nat = Some m' /\ pending_material_replacements m' !! 0 = Some mat.
Proof.
  destruct (surface_materials_applied_when_mapped surface_ex world_ex) as (_ & _ & _ & H).
  destruct (H frame_ex 7%nat 64 64 (64, 64) eq_refl eq_refl eq_refl eq_refl eq_refl)
    as (s' & w' & mat & Hp & Hm & Hq & Hall).
  exists s', w', mat. split; [exact Hp |]. split; [exact Hm |]. split; [exact Hq |].
  apply (Hall 0%nat 0 (model_ex (Some client_ex) ∅)); [left | reflexivity].
Defined.

(** * Further properties of the code *)

(** ** [draw_all] over the model registry *)

Section DrawAll.

Variable env : Env.

Lemma draw_model_realized m sk h :
  sk_model m = Some h ->
  (draw env m sk).1 = match space_client m with
                      | Some _ => with_parameters (with_replacements m ∅) ∅
                      | None => with_replacements m ∅
                      end.
Proof.
  intros Hm. rewrite (draw_realized env m sk h Hm). cbv zeta. simpl.
  destruct (space_client m); reflexivity.
Qed.

Lemma draw_each_shape l : forall w,
  dom (w_models (draw_each env l w)) = dom (w_models w) /\
  w_next_model (draw_each env l w) = w_next_model w /\
  w_queue (draw_each env l w) = w_queue w.
Proof.
  induction l as [| [id0 m0] l IH]; intros w; cbn [draw_each]; [auto |].
  destruct (w_models w !! id0) as [m |] eqn:E; [| apply IH].
  destruct (enabled m); [| apply IH].
  destruct (draw env m (w_sk w)) as [m' sk'].
  destruct (IH (mk_world sk' (<[id0 := m']> (w_models w)) (w_next_model w) (w_queue w)))
    as (H1 & H2 & H3).
  rewrite H1, H2, H3. simpl. split; [apply dom_insert_lookup_L; eauto | auto].
Qed.

Lemma draw_each_disabled l : forall w id m,
  w_models w !! id = Some m -> enabled m = false ->
  w_models (draw_each env l w) !! id = Some m.
Proof.
  induction l as [| [id0 m0] l IH]; intros w id m Hw Hen; cbn [draw_each]; [exact Hw |].
  destruct (w_models w !! id0) as [m1 |] eqn:E; [| apply IH; assumption].
  destruct (enabled m1) eqn:En; [| apply IH; assumption].
  destruct (draw env m1 (w_sk w)) as [m' sk'].
  apply IH; [| exact Hen]. simpl.
  rewrite lookup_insert_ne; [exact Hw |].
  intros ->. rewrite Hw in E. injection E as ->. congruence.
Qed.

Lemma draw_each_other l : forall w id,
  id ∉ l.*1 -> w_models (draw_each env l w) !! id = w_models w !! id.
Proof.
  induction l as [| [id0 m0] l IH]; intros w id Hn; cbn [draw_each]; [reflexivity |].
  simpl in Hn. apply not_elem_of_cons in Hn as [Hne Hn].
  destruct (w_models w !! id0) as [m1 |] eqn:E; [| apply IH; exact Hn].
  destruct (enabled m1); [| apply IH; exact Hn].
  destruct (draw env m1 (w_sk w)) as [m' sk'].
  rewrite IH by exact Hn. simpl. apply lookup_insert_ne. congruence.
Qed.

Lemma draw_each_enabled l : forall w id m,
  NoDup l.*1 -> id ∈ l.*1 -> w_models w !! id = Some m -> enabled m = true ->
  exists sk, w_models (draw_each env l w) !! id = Some (draw env m sk).1.
Proof.
  induction l as [| [id0 m0] l IH]; intros w id m Hnd Hin Hw Hen;
    [apply elem_of_nil in Hin; contradiction |].
  simpl in Hnd, Hin. apply NoDup_cons in Hnd as [Hn0 Hnd].
  cbn [draw_each].
  destruct (decide (id0 = id)) as [-> | Hne].
  - rewrite Hw, Hen. exists (w_sk w).
    destruct (draw env m (w_sk w)) as [m' sk'] eqn:D.
    rewrite draw_each_other by exact Hn0. simpl. rewrite lookup_insert_eq. reflexivity.
  - apply elem_of_cons in Hin as [Hin | Hin]; [congruence |].
    destruct (w_models w !! id0) as [m1 |] eqn:E; [| apply IH; assumption].
    destruct (enabled m1); [| apply IH; assumption].
    destruct (draw env m1 (w_sk w)) as [m' sk'].
    apply IH; try assumption. simpl. rewrite lookup_insert_ne by exact Hne. exact Hw.
Qed.

End DrawAll.

(** X1: [draw_all] never adds or removes a registered model, leaves the
    destroy queue alone, and leaves every disabled model exactly as it was. *)
Theorem draw_all_keeps_registry env (w : World) :
  dom (w_models (draw_all env w)) = dom (w_models w) /\
  w_queue (draw_all env w) = w_queue w /\
  (forall id m, w_models w !! id = Some m -> enabled m = false ->
     w_models (draw_all env w) !! id = Some m).
Proof.
  unfold draw_all.
  destruct (draw_each_shape env (map_to_list (w_models w)) w) as (H1 & _ & H3).
  split; [exact H1 |]. split; [exact H3 |].
  intros id m Hw Hen. apply draw_each_disabled; assumption.
Qed.

(** X2: [draw_all] draws every enabled, realized model once: afterwards the
    model keeps its graphics model, its replacement map is empty, and its
    parameter map is empty when its client is alive. *)
Theorem draw_all_draws_enabled env (w : World) id m h :
  w_models w !! id = Some m -> enabled m = true -> sk_model m = Some h ->
  w_models (draw_all env w) !! id
    = Some (match space_client m with
            | Some _ => with_parameters (with_replacements m ∅) ∅
            | None => with_replacements m ∅
            end).
Proof.
  intros Hw Hen Hm. unfold draw_all.
  destruct (draw_each_enabled env (map_to_list (w_models w)) w id m) as [sk Hd].
  - apply NoDup_fst_map_to_list.
  - apply list_elem_of_fmap. exists (id, m). split; [reflexivity |].
    apply elem_of_map_to_list. exact Hw.
  - exact Hw.
  - exact Hen.
  - rewrite Hd, (draw_model_realized env m sk h Hm). reflexivity.
Qed.

Lemma draw_all_draws_enabled_witness :
  w_models (draw_all env_ex world_ex) !! 0%nat
    = Some (with_parameters (with_replacements (model_ex (Some client_ex) ∅) ∅) ∅).
Proof.
  exact (draw_all_draws_enabled env_ex world_ex 0%nat (model_ex (Some client_ex) ∅) 0%nat
           eq_refl eq_refl eq_refl).
Defined.

(** ** [Model::add_to] and dropping a model *)

Lemma release_materials h sk : sk_materials (release h sk) = sk_materials sk.
Proof. unfold release. destruct (sk_refs sk !! h) as [[| [|]] |]; reflexivity. Qed.

Lemma release_all_materials l : forall sk, sk_materials (release_all l sk) = sk_materials sk.
Proof. induction l as [| h l IH]; intros sk; simpl; [| rewrite IH, release_materials]; reflexivity. Qed.

(** X3: when [Model::add_to] fails, the registry, the graphics state and the
    destroy queue are as before the call: a model published and then dropped
    on a resolution error leaves nothing behind (the registry's next identity
    being unused). *)
Theorem add_to_failure_leaves_registry env node rid (w : World) e w' :
  w_models w !! w_next_model w = None ->
  add_to env node rid w = (inl e, w') ->
  w_models w' = w_models w /\ w_sk w' = w_sk w /\ w_queue w' = w_queue w.
Proof.
  intros Hfresh. unfold add_to, add_to_publish.
  destruct (node_has_spatial node), (node_has_drawable node); simpl;
    try (intros E; injection E as _ <-; auto; fail).
  unfold add_to_resolve. simpl. rewrite lookup_insert_eq.
  assert (Hdrop : forall m, sk_model m = None -> pending_material_replacements m = ∅ ->
            drop_model (w_next_model w)
              (mk_world (w_sk w) (<[w_next_model w := m]> (w_models w))
                        (S (w_next_model w)) (w_queue w))
            = mk_world (w_sk w) (w_models w) (S (w_next_model w)) (w_queue w)).
  { intros m Hm Hr. unfold drop_model. simpl. rewrite lookup_insert_eq.
    unfold model_drop. rewrite Hm, Hr, map_to_list_empty. simpl.
    rewrite delete_insert_id by exact Hfresh. reflexivity. }
  destruct (node_client node) as [c |]; simpl.
  - destruct (get_file env rid (base_resource_prefixes c) ["glb"; "gltf"]); simpl;
      [discriminate |].
    intros E. injection E as _ <-. rewrite Hdrop by reflexivity. simpl. auto.
  - intros E. injection E as _ <-. rewrite Hdrop by reflexivity. simpl. auto.
Qed.

Lemma add_to_failure_leaves_registry_witness :
  w_models (add_to env_ex node_ex "missing" world_empty).2 = w_models world_empty /\
  w_sk (add_to env_ex node_ex "missing" world_empty).2 = w_sk world_empty /\
  w_queue (add_to env_ex node_ex "missing" world_empty).2 = w_queue world_empty.
Proof.
  exact (add_to_failure_leaves_registry env_ex node_ex "missing" world_empty ResourceNotFound
           (add_to env_ex node_ex "missing" world_empty).2 eq_refl eq_refl).
Defined.

(** X4: when [Model::add_to] succeeds, it registers exactly one new model,
    under the registry's next identity: enabled as the node, with the node's
    client, the given resource, the file it resolved to as its path, empty
    staging maps and no graphics model yet; nothing else changes. *)
Theorem add_to_success_registers env node rid (w : World) id w' :
  add_to env node rid w = (inr id, w') ->
  id = w_next_model w /\ w_next_model w' = S id /\
  w_sk w' = w_sk w /\ w_queue w' = w_queue w /\
  exists c p, node_client node = Some c /\
    get_file env rid (base_resource_prefixes c) ["glb"; "gltf"] = Some p /\
    w_models w' = <[id := {| enabled := node_enabled node; space_client := node_client node;
                             resource_id := rid; pending_model_path := Some p;
                             pending_material_parameters := ∅;
                             pending_material_replacements := ∅; sk_model := None |}]>
                    (w_models w).
Proof.
  unfold add_to, add_to_publish.
  destruct (node_has_spatial node), (node_has_drawable node); simpl; try discriminate.
  unfold add_to_resolve. simpl. rewrite lookup_insert_eq.
  destruct (node_client node) as [c |] eqn:Hc; simpl; [| discriminate].
  destruct (get_file env rid (base_resource_prefixes c) ["glb"; "gltf"]) as [p |] eqn:Hp;
    simpl; [| discriminate].
  intros E. injection E as <- <-. simpl.
  do 4 (split; [reflexivity |]). exists c, p. split; [reflexivity |]. split; [exact Hp |].
  rewrite insert_insert_eq. reflexivity.
Qed.

Lemma add_to_success_registers_witness :
  exists c p, node_client node_ex = Some c /\
    get_file env_ex "cube" (base_resource_prefixes c) ["glb"; "gltf"] = Some p /\
    w_models (add_to env_ex node_ex "cube" world_empty).2
      = <[0%nat := {| enabled := true; space_client := Some client_ex; resource_id := "cube";
                      pending_model_path := Some p; pending_material_parameters := ∅;
                      pending_material_replacements := ∅; sk_model := None |}]> ∅.
Proof.
  destruct (add_to_success_registers env_ex node_ex "cube" world_empty 0%nat
              (add_to env_ex node_ex "cube" world_empty).2 eq_refl)
    as (_ & _ & _ & _ & c & p & Hc & Hp & Hw).
  exists c, p. split; [exact Hc |]. split; [exact Hp |]. exact Hw.
Defined.

(** X5: dropping a registered model removes it, and only it, from the
    registry; its graphics model (if built) is appended to the destroy
    queue; no graphics model and no material parameter changes (the drop
    only gives up the references held by the staged replacements). *)
Theorem drop_model_removes_only_it id (w : World) m :
  w_models w !! id = Some m ->
  w_models (drop_model id w) = delete id (w_models w) /\
  w_queue (drop_model id w)
    = w_queue w ++ match sk_model m with Some h => [QHandle h] | None => [] end /\
  sk_models (w_sk (drop_model id w)) = sk_models (w_sk w) /\
  sk_materials (w_sk (drop_model id w)) = sk_materials (w_sk w).
Proof.
  intros Hw. unfold drop_model. rewrite Hw. unfold model_drop.
  simpl. split; [reflexivity |]. split.
  - destruct (sk_model m); [reflexivity | rewrite app_nil_r; reflexivity].
  - split; [apply release_all_models | apply release_all_materials].
Qed.

Lemma drop_model_removes_only_it_witness :
  w_models (drop_model 0%nat world_ex) = ∅ /\ w_queue (drop_model 0%nat world_ex) = [QHandle 0%nat].
Proof.
  destruct (drop_model_removes_only_it 0%nat world_ex (model_ex (Some client_ex) ∅) eq_refl)
    as (H1 & H2 & _).
  rewrite H1, H2. split; [apply delete_singleton_eq | reflexivity].
Defined.

(** ** The parameter pass and the slot-index cast *)

Lemma apply_to_material_texture_fails env c r mat name sk :
  (get_file env r (base_resource_prefixes c) ["png"; "jpg"] = None \/
   exists p, get_file env r (base_resource_prefixes c) ["png"; "jpg"] = Some p /\
             texture_file_ok env p = false) ->
  apply_to_material env c (MPTexture r) mat name sk = sk.
Proof.
  intros Hf. unfold apply_to_material.
  destruct Hf as [-> | [p [-> Hp]]]; [reflexivity |]. rewrite Hp. reflexivity.
Qed.

(** X6: for a realized model with a live client, no staged replacements
    and, as its only staged parameter, a texture whose resource resolves to
    no file or whose file does not load, the next draw drops the parameter
    silently: it copies the slot's material, puts the copy with unchanged
    parameters into the slot, writes no parameter and draws. *)
Theorem texture_parameter_unresolved_copies_material env (m : Model) (sk : Sk) h c
    (i : Z) (name : string) (r : ResourceID) slots mt ps :
  sk_model m = Some h -> space_client m = Some c ->
  pending_material_replacements m = ∅ ->
  pending_material_parameters m = {[(i, name) := MPTexture r]} ->
  sk_models sk !! h = Some slots -> slots !! i = Some mt -> sk_materials sk !! mt = Some ps ->
  (get_file env r (base_resource_prefixes c) ["png"; "jpg"] = None \/
   exists p, get_file env r (base_resource_prefixes c) ["png"; "jpg"] = Some p /\
             texture_file_ok env p = false) ->
  sk_models (draw env m sk).2 !! h = Some (<[i := sk_next sk]> slots) /\
  sk_materials (draw env m sk).2 !! sk_next sk = Some ps /\
  sk_log (draw env m sk).2
    = sk_log sk ++ [EvModelGetMaterial h i; EvMaterialCopy mt (sk_next sk);
                    EvModelSetMaterial h i (sk_next sk); EvModelDraw h].
Proof.
  intros Hm Hc Hr Hp Hs Hi Hmt Hf.
  rewrite (draw_realized env m sk h Hm). cbv zeta.
  rewrite Hr, map_to_list_empty. simpl. rewrite Hc. cbn [fst snd].
  rewrite Hp, map_to_list_singleton. cbn [apply_parameters].
  replace (model_get_material h i sk) with (emit (EvModelGetMaterial h i) sk, Some mt)
    by (unfold model_get_material; rewrite Hs; simpl; rewrite Hi; reflexivity).
  set (sk1 := emit (EvModelGetMaterial h i) sk).
  replace (material_copy mt sk1)
    with (emit (EvMaterialCopy mt (sk_next sk))
            (mk_sk (S (sk_next sk)) (sk_models sk) (<[sk_next sk := ps]> (sk_materials sk))
                   (sk_refs sk) (sk_log sk1)), sk_next sk)
    by (unfold material_copy, alloc; simpl; rewrite Hmt; reflexivity).
  cbv iota beta. rewrite apply_to_material_texture_fails by exact Hf.
  unfold model_set_material. simpl.
  rewrite lookup_alter_eq, Hs. simpl. rewrite Hi.
  split; [reflexivity |]. split; [apply lookup_insert_eq |].
  rewrite <- !app_assoc. reflexivity.
Qed.

Lemma texture_parameter_unresolved_copies_material_witness :
  sk_models (draw env_ex (model_ex (Some client_ex) {[(0, "albedo"%string) := MPTexture "missing"]})
               sk_ex).2 !! 0%nat = Some (<[0 := sk_next sk_ex]> {[0 := 1%nat]}).
Proof.
  exact (proj1 (texture_parameter_unresolved_copies_material env_ex
              (model_ex (Some client_ex) {[(0, "albedo"%string) := MPTexture "missing"]}) sk_ex
              0%nat client_ex 0 "albedo" "missing" {[0 := 1%nat]} 1%nat ∅
              eq_refl eq_refl eq_refl eq_refl eq_refl eq_refl eq_refl (or_introl eq_refl))).
Defined.

Lemma as_i32_inj x y : 0 <= x < 2 ^ 32 -> 0 <= y < 2 ^ 32 -> as_i32 x = as_i32 y -> x = y.
Proof.
  unfold as_i32. intros Hx Hy.
  destruct (Z.ltb_spec x (2 ^ 31)), (Z.ltb_spec y (2 ^ 31)); lia.
Qed.

(** X7: the [u32 as i32] cast applied to staged parameter slots is injective
    on [u32] values: staging parameters for two different (slot, name) keys
    keeps both, whatever the order. *)
Theorem set_material_parameter_distinct_keys (i j : Z) (n1 n2 : string)
    (v1 v2 : MaterialParameter) (m : Model) :
  0 <= i < 2 ^ 32 -> 0 <= j < 2 ^ 32 -> (i, n1) <> (j, n2) ->
  pending_material_parameters (set_material_parameter i n1 v1 (set_material_parameter j n2 v2 m))
    !! (as_i32 i, n1) = Some v1 /\
  pending_material_parameters (set_material_parameter i n1 v1 (set_material_parameter j n2 v2 m))
    !! (as_i32 j, n2) = Some v2.
Proof.
  intros Hi Hj Hne. simpl. split; [apply lookup_insert_eq |].
  rewrite lookup_insert_ne; [apply lookup_insert_eq |].
  intros E. injection E as E1 E2. apply Hne. f_equal; [| congruence].
  apply as_i32_inj; assumption.
Qed.

Lemma set_material_parameter_distinct_keys_witness :
  pending_material_parameters
    (set_material_parameter (2 ^ 31) "tint" (MPValue 0 [1])
       (set_material_parameter 0 "tint" (MPValue 0 [2]) (model_ex None ∅)))
    !! (as_i32 0, "tint"%string) = Some (MPValue 0 [2]).
Proof.
  refine (proj2 (set_material_parameter_distinct_keys (2 ^ 31) 0 "tint" "tint"
                   (MPValue 0 [1]) (MPValue 0 [2]) (model_ex None ∅) _ _ _)).
  - lia.
  - lia.
  - intros E. injection E. lia.
Defined.

(** ** The trace and the slots of one draw *)

Lemma slots_like_models sk sk' h slots :
  sk_models sk' = sk_models sk -> slots_like sk h slots -> slots_like sk' h slots.
Proof. unfold slots_like. intros ->. exact id. Qed.

Lemma apply_to_material_models env c v mat name sk :
  sk_models (apply_to_material env c v mat name sk) = sk_models sk.
Proof.
  unfold apply_to_material. destruct v as [? ? | r]; [reflexivity |].
  destruct (get_file env r _ _) as [p |]; [| reflexivity].
  destruct (texture_file_ok env p); reflexivity.
Qed.

Lemma apply_parameters_slots_like env c h slots l : forall sk,
  slots_like sk h slots -> slots_like (apply_parameters env c h l sk) h slots.
Proof.
  induction l as [| [[i name] v] l IH]; intros sk Hsl; cbn [apply_parameters]; [exact Hsl |].
  destruct (model_get_material h i sk) as [sk1 found] eqn:E.
  destruct (model_get_material_extends (fun _ => True) _ _ _ _ _ E I) as [_ [Hmo _]].
  apply (slots_like_models _ sk1) in Hsl; [| exact Hmo].
  destruct found as [mat |]; [| apply IH; exact Hsl].
  destruct (material_copy mat sk1) as [sk2 nm] eqn:E2.
  assert (Hmo2 : sk_models sk2 = sk_models sk1).
  { unfold material_copy, alloc in E2. injection E2 as <- _. reflexivity. }
  apply IH. apply model_set_material_slots_like.
  eapply slots_like_models; [apply apply_to_material_models |].
  eapply slots_like_models; [exact Hmo2 | exact Hsl].
Qed.

(** X8: a draw of a realized model never adds or removes a material slot of
    its graphics model: replacements and parameter copies only replace the
    material of a slot that exists. *)
Theorem draw_keeps_slots env (m : Model) (sk : Sk) h slots :
  sk_model m = Some h -> sk_models sk !! h = Some slots ->
  exists slots', sk_models (draw env m sk).2 !! h = Some slots' /\
    forall i, is_Some (slots' !! i) <-> is_Some (slots !! i).
Proof.
  intros Hm Hs.
  assert (Hsl : slots_like sk h slots).
  { exists slots. split; [exact Hs | reflexivity]. }
  rewrite (draw_realized env m sk h Hm). cbv zeta.
  set (repl := map_to_list (pending_material_replacements m)).
  assert (H1 : slots_like (release_all (map snd repl) (apply_replacements h repl sk)) h slots).
  { eapply slots_like_models; [apply release_all_models |].
    apply (proj2 (apply_replacements_log h slots repl sk Hsl)). }
  destruct (space_client (with_replacements m ∅)) as [c |]; cbn [fst snd];
    (eapply slots_like_models; [reflexivity |]); [| exact H1].
  apply apply_parameters_slots_like. exact H1.
Qed.

Lemma draw_keeps_slots_witness :
  exists slots', sk_models (draw env_ex (model_ex (Some client_ex) ∅) sk_ex).2 !! 0%nat
                   = Some slots' /\
    forall i, is_Some (slots' !! i) <-> is_Some (({[0 := 1%nat]} : gmap Z Handle) !! i).
Proof. exact (draw_keeps_slots env_ex (model_ex (Some client_ex) ∅) sk_ex 0%nat _ eq_refl eq_refl). Defined.

(** X9: every draw of a realized model issues exactly one draw call, for its
    own graphics model, as its last graphics call; the calls before it are
    material lookups, assignments, copies, parameter writes and releases,
    never another draw and never a model construction. *)
Theorem draw_ends_with_one_draw_call env (m : Model) (sk : Sk) h :
  sk_model m = Some h ->
  exists pre, sk_log (draw env m sk).2 = sk_log sk ++ pre ++ [EvModelDraw h] /\
    Forall (fun e => is_model_draw e = false /\ is_create e = false) pre.
Proof.
  intros Hm. rewrite (draw_realized env m sk h Hm). cbv zeta.
  set (repl := map_to_list (pending_material_replacements m)).
  set (P := fun e => is_model_draw e = false /\ is_create e = false).
  assert (H1 : extends P sk (release_all (map snd repl) (apply_replacements h repl sk))).
  { eapply extends_trans.
    - eapply extends_weaken; [| apply apply_replacements_extends].
      intros [] He; simpl in *; unfold P; simpl; tauto.
    - eapply extends_weaken; [| apply release_all_extends].
      intros e [h' [-> _]]. split; reflexivity. }
  assert (Hfin : forall sk4, extends P sk sk4 ->
            exists pre, sk_log (emit (EvModelDraw h) sk4) = sk_log sk ++ pre ++ [EvModelDraw h] /\
                        Forall P pre).
  { intros sk4 [pre [Hl HF]]. exists pre. simpl. rewrite Hl, <- app_assoc. auto. }
  destruct (space_client (with_replacements m ∅)) as [c |]; cbn [fst snd];
    apply Hfin; [| exact H1].
  eapply extends_trans; [exact H1 |].
  eapply extends_weaken; [| apply apply_parameters_extends].
  intros [] He; simpl in *; unfold P; simpl; tauto.
Qed.

Lemma draw_ends_with_one_draw_call_witness :
  exists pre, sk_log (draw env_ex (model_ex None ∅) sk_ex).2 = sk_log sk_ex ++ pre ++ [EvModelDraw 0%nat] /\
    Forall (fun e => is_model_draw e = false /\ is_create e = false) pre.
Proof. exact (draw_ends_with_one_draw_call env_ex (model_ex None ∅) sk_ex 0%nat eq_refl). Defined.

(** X10: staging a surface material into a slot that already holds another
    one takes a reference to the new material and gives up the reference to
    the displaced one, destroying it when that was its last reference. *)
Theorem insert_replacement_swaps_references (idx : Z) (mat old : Handle) (m : Model) (sk : Sk)
    (a b : nat) :
  pending_material_replacements m !! idx = Some old -> old <> mat ->
  sk_refs sk !! mat = Some a -> sk_refs sk !! old = Some b ->
  sk_refs (insert_replacement idx mat m sk).2 !! mat = Some (S a) /\
  sk_refs (insert_replacement idx mat m sk).2 !! old
    = (if decide (b <= 1)%nat then None else Some (b - 1)%nat) /\
  sk_log (insert_replacement idx mat m sk).2
    = sk_log sk ++ (if decide (b <= 1)%nat then [EvDestroy old] else []).
Proof.
  intros Hold Hne Ha Hb. unfold insert_replacement. rewrite Hold. cbn [snd].
  unfold retain. rewrite Ha. unfold release. simpl.
  rewrite lookup_insert_ne by congruence. rewrite Hb.
  destruct b as [| [| b]].
  - rewrite decide_True by lia. simpl.
    rewrite lookup_delete_ne by congruence. rewrite lookup_insert_eq, lookup_delete_eq. auto.
  - rewrite decide_True by lia. simpl.
    rewrite lookup_delete_ne by congruence. rewrite lookup_insert_eq, lookup_delete_eq. auto.
  - rewrite decide_False by lia. simpl.
    rewrite lookup_insert_ne by congruence. rewrite !lookup_insert_eq.
    rewrite app_nil_r. replace (S (S b) - 1)%nat with (S b) by lia. auto.
Qed.

Lemma insert_replacement_swaps_references_witness :
  sk_refs (insert_replacement 0 3%nat (with_replacements (model_ex None ∅) {[0 := 2%nat]}) sk_ex).2
    !! 2%nat = None /\
  sk_log (insert_replacement 0 3%nat (with_replacements (model_ex None ∅) {[0 := 2%nat]}) sk_ex).2
    = [EvDestroy 2%nat].
Proof.
  destruct (insert_replacement_swaps_references 0 3%nat 2%nat
              (with_replacements (model_ex None ∅) {[0 := 2%nat]}) sk_ex 1%nat 1%nat)
    as (_ & H2 & H3); [vm_compute; reflexivity | discriminate | reflexivity | reflexivity |].
  split; (etransitivity; [first [exact H2 | exact H3] |]);
    try (rewrite decide_True by lia); reflexivity.
Defined.

(** ** [CoreSurface::process] and the surface registry *)

Section SurfaceWorld.

Variable mat : Handle.

Lemma insert_replacement_extends i m sk :
  extends (fun e => exists h, e = EvDestroy h) sk (insert_replacement i mat m sk).2.
Proof.
  unfold insert_replacement. cbn [snd].
  assert (Hr : extends (fun e => exists h, e = EvDestroy h) sk (retain mat sk)).
  { unfold retain. destruct (sk_refs sk !! mat); [exists []; rewrite app_nil_r; auto |].
    apply extends_refl. }
  destruct (pending_material_replacements m !! i) as [old |]; [| exact Hr].
  eapply extends_trans; [exact Hr |].
  eapply extends_weaken; [| apply release_extends]. intros e ->. eauto.
Qed.

Lemma apply_surface_materials_world l : forall w,
  w_queue (apply_surface_materials mat l w) = w_queue w /\
  w_next_model (apply_surface_materials mat l w) = w_next_model w /\
  extends (fun e => exists h, e = EvDestroy h) (w_sk w) (w_sk (apply_surface_materials mat l w)).
Proof.
  induction l as [| [model i] l IH]; intros w; cbn [apply_surface_materials];
    [split; [| split]; [reflexivity | reflexivity | apply extends_refl] |].
  destruct (w_models w !! model) as [m |] eqn:E; [| apply IH].
  destruct (insert_replacement i mat m (w_sk w)) as [m' sk'] eqn:Ei.
  destruct (IH (mk_world sk' (<[model := m']> (w_models w)) (w_next_model w) (w_queue w)))
    as (H1 & H2 & H3).
  rewrite H1, H2. split; [reflexivity |]. split; [reflexivity |].
  eapply extends_trans; [| exact H3]. simpl.
  pose proof (insert_replacement_extends i m (w_sk w)) as Hx. rewrite Ei in Hx. exact Hx.
Qed.

End SurfaceWorld.

(** X11: [process] on a live surface creates the surface's texture and
    material at most once: it leaves them set, keeps the ones already
    created, and when both already exist it creates no texture and no
    material, whatever the frame reports. *)
Theorem process_creates_handles_once (fr : SurfaceFrame) (s : CoreSurface) (w : World) s' w' :
  surface_alive s = true -> process fr s w = Some (s', w') ->
  is_Some (sk_tex s') /\ is_Some (sk_mat s') /\
  (forall t, sk_tex s = Some t -> sk_tex s' = Some t) /\
  (forall mt, sk_mat s = Some mt -> sk_mat s' = Some mt) /\
  (is_Some (sk_tex s) -> is_Some (sk_mat s) ->
   extends (fun e => match e with EvTexCreate _ | EvMaterialCreate _ _ => False | _ => True end)
     (w_sk w) (w_sk w')).
Proof.
  intros Ha. unfold process. rewrite Ha. cbn [negb].
  set (P := fun e => match e with EvTexCreate _ | EvMaterialCreate _ _ => False | _ => True end).
  assert (Htail : forall mt sk l w0, extends P (w_sk w) sk ->
            w_sk w0 = sk ->
            extends P (w_sk w) (w_sk (apply_surface_materials mt l w0))).
  { intros mt sk l w0 Hx Hw0. eapply extends_trans; [exact Hx |]. rewrite <- Hw0.
    eapply extends_weaken; [| apply apply_surface_materials_world].
    intros e [h ->]. exact I. }
  destruct (sk_tex s) as [t |], (sk_mat s) as [mt |]; cbn zeta;
    destruct (import_ok fr), (buffer_mapped fr); cbn [negb];
    try (destruct (smithay_tex fr) as [[[tid tw] th] |]; [| discriminate];
         destruct (delta (material_offset s)) as [off' [o |]];
         destruct (surface_size fr) as [sz |]; [| discriminate | | discriminate]);
    intros E; injection E as <- <-; simpl;
    (split; [eauto |]); (split; [eauto |]);
    (split; [intros ? E; first [discriminate E | injection E as ->; reflexivity] |]);
    (split; [intros ? E; first [discriminate E | injection E as ->; reflexivity] |]);
    intros [? Ht] [? Hm]; try discriminate Ht; try discriminate Hm;
    try apply extends_refl.
  - eapply Htail; [| reflexivity].
    eapply extends_trans; apply emit_extends; exact I.
  - eapply Htail; [| reflexivity]. apply emit_extends. exact I.
Qed.

Lemma process_creates_handles_once_witness :
  exists s' w', process frame_ex surface_ex world_ex = Some (s', w') /\
    is_Some (sk_tex s') /\ is_Some (sk_mat s').
Proof.
  destruct (process frame_ex surface_ex world_ex) as [[s' w'] |] eqn:E;
    [| vm_compute in E; discriminate E].
  destruct (process_creates_handles_once frame_ex surface_ex world_ex s' w' eq_refl E)
    as (Ht & Hm & _).
  exists s', w'. auto.
Defined.

(** X12: a [process] call that finds the surface alive, imported and mapped
    (and does not panic) records the new buffer's texture and size, so that
    [CoreSurface::size] reports the new size, and hands the previous
    frame's GLES texture, if any, to the destroy queue. *)
Theorem process_mapped_replaces_buffer (fr : SurfaceFrame) (s : CoreSurface) (w : World)
    tid tw th sz :
  surface_alive s = true -> import_ok fr = true -> buffer_mapped fr = true ->
  smithay_tex fr = Some (tid, tw, th) -> surface_size fr = Some sz ->
  exists s' w', process fr s w = Some (s', w') /\
    mapped_data s' = Some {| wl_tex := Some tid; size := sz |} /\
    CoreSurface_size s' = Some sz /\
    w_queue w' = w_queue w ++ match mapped_data s with
                              | Some {| wl_tex := Some t |} => [QGlesTexture t]
                              | _ => []
                              end.
Proof.
  intros Ha Hi Hb Ht Hs. unfold process.
  rewrite Ha, Hi, Hb, Ht. cbn [negb].
  destruct (delta (material_offset s)) as [off' changed].
  destruct (sk_tex s) as [t |], (sk_mat s) as [mt |]; cbn zeta; simpl; rewrite Hs;
    (eexists _, _; split; [reflexivity |]); simpl;
    (split; [reflexivity |]); (split; [reflexivity |]);
    rewrite (proj1 (apply_surface_materials_world _ _ _)); simpl;
    destruct (mapped_data s) as [[[t' |] sz'] |]; simpl;
    rewrite ?app_nil_r; reflexivity.
Qed.

Lemma process_mapped_replaces_buffer_witness :
  exists s' w',
    process frame_ex (mk_surface true (Some {| wl_tex := Some 5%nat; size := (32, 32) |})
                        None None (delta_new 0) []) world_ex = Some (s', w') /\
    CoreSurface_size s' = Some (64, 64) /\ w_queue w' = [QGlesTexture 5%nat].
Proof.
  destruct (process_mapped_replaces_buffer frame_ex
              (mk_surface true (Some {| wl_tex := Some 5%nat; size := (32, 32) |})
                 None None (delta_new 0) []) world_ex 7%nat 64 64 (64, 64)
              eq_refl eq_refl eq_refl eq_refl eq_refl) as (s' & w' & Hp & _ & Hsz & Hq).
  exists s', w'. split; [exact Hp |]. split; [exact Hsz |]. rewrite Hq. reflexivity.
Defined.

(** X13: [process] panics (an [unwrap] on [None]) when the surface is alive,
    imported and mapped but the renderer has no texture for it, or has a
    texture but no surface size. *)
Theorem process_panics_without_texture_or_size (fr : SurfaceFrame) (s : CoreSurface) (w : World) :
  surface_alive s = true -> import_ok fr = true -> buffer_mapped fr = true ->
  (smithay_tex fr = None \/ (is_Some (smithay_tex fr) /\ surface_size fr = None)) ->
  process fr s w = None.
Proof.
  intros Ha Hi Hb Hc. unfold process. rewrite Ha, Hi, Hb. cbn [negb].
  destruct Hc as [Ht | [[[[tid tw] th] Ht] Hs]]; rewrite Ht;
    destruct (sk_tex s), (sk_mat s); cbn zeta; simpl; try reflexivity;
    destruct (delta (material_offset s)); simpl; rewrite Hs; reflexivity.
Qed.

Lemma process_panics_without_texture_or_size_witness :
  process {| import_ok := true; buffer_mapped := true; smithay_tex := None;
             surface_size := Some (64, 64) |} surface_ex world_ex = None.
Proof.
  apply process_panics_without_texture_or_size; [reflexivity | reflexivity | reflexivity |].
  left. reflexivity.
Defined.

(** X14: [CoreSurface::add_to] attaches a [CoreSurface] to a [WlSurface] at
    most once: the first call creates a live, unmapped surface with no
    handles, offset 0 and nothing staged, which [from_wl_surface] then
    returns; a later call changes nothing; and other surfaces' lookups are
    unaffected. *)
Theorem core_surface_add_to_once (surf : nat) (r : SurfaceRegistry) :
  (forall x id, data_maps r !! x = Some id -> (id < next_surface r)%nat) ->
  CoreSurface_add_to surf (CoreSurface_add_to surf r) = CoreSurface_add_to surf r /\
  (data_maps r !! surf = None ->
   from_wl_surface surf (CoreSurface_add_to surf r)
     = Some (mk_surface true None None None (delta_new 0) [])) /\
  (is_Some (data_maps r !! surf) -> CoreSurface_add_to surf r = r) /\
  (forall surf', surf' <> surf ->
   from_wl_surface surf' (CoreSurface_add_to surf r) = from_wl_surface surf' r).
Proof.
  intros Hlt. unfold CoreSurface_add_to.
  destruct (data_maps r !! surf) as [id |] eqn:E.
  - rewrite E. split; [reflexivity |]. split; [discriminate |]. auto.
  - simpl. rewrite lookup_insert_eq. split; [reflexivity |]. split.
    { intros _. unfold from_wl_surface. simpl. rewrite lookup_insert_eq. simpl.
      apply lookup_insert_eq. }
    split; [intros [? H]; discriminate H |].
    intros surf' Hne. unfold from_wl_surface. simpl.
    rewrite lookup_insert_ne by congruence.
    destruct (data_maps r !! surf') as [id' |] eqn:E'; simpl; [| reflexivity].
    apply Hlt in E'. apply lookup_insert_ne. lia.
Qed.

Lemma core_surface_add_to_once_witness :
  from_wl_surface 4%nat (CoreSurface_add_to 4%nat {| data_maps := ∅; core_surfaces := ∅; next_surface := 0%nat |})
    = Some (mk_surface true None None None (delta_new 0) []).
Proof.
  apply (core_surface_add_to_once 4%nat {| data_maps := ∅; core_surfaces := ∅; next_surface := 0%nat |}).
  - intros x id H. discriminate H.
  - reflexivity.
Defined.

(** ** The accept loop *)

(** X15: over any run of accept outcomes, the loop produces one event per
    accepted connection and none for a failed accept; the clients it creates
    are exactly the accepted connections whose client creation succeeded,
    in accept order. *)
Theorem event_loop_creates_clients_in_order (fc : nat -> option string) (rs : list AcceptResult) :
  length (event_loop fc rs)
    = length (omap (fun r => match r with AcceptOk c => Some c | AcceptErr _ => None end) rs) /\
  omap (fun e => match e with ClientCreated c => Some c | LogError _ => None end) (event_loop fc rs)
    = omap (fun r => match r with
                     | AcceptOk c => match fc c with None => Some c | Some _ => None end
                     | AcceptErr _ => None
                     end) rs.
Proof.
  induction rs as [| r rs [IHl IHo]]; [split; reflexivity |].
  cbn [event_loop]. rewrite length_app, omap_app, IHl, IHo.
  destruct r as [c | err]; simpl; [| split; reflexivity].
  destruct (fc c); simpl; split; reflexivity.
Qed.

(** X16: a [process] call that finds the surface alive, imported and mapped
    (and does not panic) sets the material's queue offset once if the offset
    written by [set_material_offset] differs from the one last sent, and not
    at all otherwise; the value sent is the [u32] offset cast [as i32], so
    offsets from [2^31] on arrive negative. Afterwards the written offset
    counts as sent. *)
Theorem process_sends_offset_on_change (fr : SurfaceFrame) (s : CoreSurface) (w : World)
    tid tw th sz :
  surface_alive s = true -> import_ok fr = true -> buffer_mapped fr = true ->
  smithay_tex fr = Some (tid, tw, th) -> surface_size fr = Some sz ->
  exists s' w' mat new, process fr s w = Some (s', w') /\ sk_mat s' = Some mat /\
    sk_log (w_sk w') = sk_log (w_sk w) ++ new /\
    filter (fun e => is_queue_offset e = true) new
      = (if decide (delta_value (material_offset s) = delta_last (material_offset s))
         then [] else [EvMaterialSetQueueOffset mat (as_i32 (delta_value (material_offset s)))]) /\
    delta_value (material_offset s') = delta_value (material_offset s) /\
    delta_last (material_offset s') = delta_value (material_offset s).
Proof.
  intros Ha Hi Hb Ht Hs. unfold process.
  rewrite Ha, Hi, Hb, Ht. cbn [negb].
  assert (Htail : forall mt l w2, exists d,
            sk_log (w_sk (apply_surface_materials mt l w2)) = sk_log (w_sk w2) ++ d /\
            filter (fun e => is_queue_offset e = true) d = []).
  { intros mt l w2. destruct (proj2 (proj2 (apply_surface_materials_world mt l w2)))
      as [d [Hd HF]].
    exists d. split; [exact Hd |]. clear Hd. induction HF as [| e d [h ->] _ IH]; [reflexivity |].
    rewrite filter_cons_False by discriminate. exact IH. }
  unfold delta.
  destruct (decide (delta_value (material_offset s) = delta_last (material_offset s)))
    as [Heq | Hne];
  destruct (sk_tex s) as [t |], (sk_mat s) as [mt |]; cbn zeta; simpl; rewrite Hs;
    match goal with
    | |- context [apply_surface_materials ?m ?l ?w2] =>
        destruct (Htail m l w2) as [d [Hd Hf]]
    end;
    (eexists _, _, _, _; split; [reflexivity |]); simpl; (split; [reflexivity |]);
    rewrite Hd; simpl; rewrite <- !app_assoc; (split; [reflexivity |]);
    rewrite ?filter_app, ?filter_cons_True, ?filter_cons_False, ?filter_nil, Hf by reflexivity;
    simpl; rewrite ?Heq; auto.
Qed.

Lemma process_sends_offset_on_change_witness :
  exists s' w' mat new,
    process frame_ex (set_material_offset (2 ^ 31) surface_ex) world_ex = Some (s', w') /\
    sk_mat s' = Some mat /\ sk_log (w_sk w') = sk_log (w_sk world_ex) ++ new /\
    filter (fun e => is_queue_offset e = true) new
      = [EvMaterialSetQueueOffset mat (- 2 ^ 31)].
Proof.
  destruct (process_sends_offset_on_change frame_ex (set_material_offset (2 ^ 31) surface_ex) world_ex
              7%nat 64 64 (64, 64) eq_refl eq_refl eq_refl eq_refl eq_refl)
    as (s' & w' & mat & new & Hp & Hm & Hl & Hf & _).
  exists s', w', mat, new. split; [exact Hp |]. split; [exact Hm |]. split; [exact Hl |].
  rewrite Hf. rewrite decide_False; [reflexivity |]. simpl. discriminate.
Defined.
